(** * Anchor geometry of gluon-detection: [src/anchors.py]

    A shallow embedding of the four numeric routines of [anchors.py]
    ([AnchorGenerator.generate_anchors], [calc_overlap],
    [calc_anchor_match], [calc_delta]) and the properties that the
    specification states about them.

    Numbers.  The routines compute on floating-point tensors.  They are
    embedded over exact real arithmetic: a tensor element is a [num], that
    is [Some r] for the real number [r], or [None] for a value that exact
    arithmetic does not determine (the float would be NaN or an infinity:
    a quotient by zero, the root of a negative number, the logarithm of a
    non-positive number, or anything computed from such a value).
    Rounding is not modelled.

    Tensors.  A 1-D tensor is a list, a 2-D tensor a list of rows, an
    [(N, 4)] tensor of boxes a list of 4-tuples. *)

From Stdlib Require Import Reals Lra Psatz ZArith Sorted.
From stdpp Require Import base list.

Open Scope R_scope.

(** ** Tensor elements *)

Definition num := option R.

Definition lift2 (f : R → R → R) (a b : num) : num :=
  match a, b with
  | Some x, Some y => Some (f x y)
  | _, _ => None
  end.

Definition nadd : num → num → num := lift2 Rplus.
Definition nsub : num → num → num := lift2 Rminus.
Definition nmul : num → num → num := lift2 Rmult.
Definition nmax : num → num → num := lift2 Rmax.
Definition nmin : num → num → num := lift2 Rmin.

(** [a / b]: a zero divisor gives NaN or an infinity. *)
Definition ndiv (a b : num) : num :=
  match a, b with
  | Some x, Some y => if Req_dec_T y 0 then None else Some (x / y)
  | _, _ => None
  end.

(** [np.sqrt]: NaN below zero. *)
Definition nsqrt (a : num) : num :=
  match a with
  | Some x => if Rle_dec 0 x then Some (sqrt x) else None
  | None => None
  end.

(** [torch.log]: NaN below zero, minus infinity at zero. *)
Definition nlog (a : num) : num :=
  match a with
  | Some x => if Rlt_dec 0 x then Some (ln x) else None
  | None => None
  end.

Declare Scope num_scope.
Delimit Scope num_scope with num.
Bind Scope num_scope with num.
Infix "⊕" := nadd (at level 50, left associativity) : num_scope.
Infix "⊖" := nsub (at level 50, left associativity) : num_scope.
Infix "⊗" := nmul (at level 40, left associativity) : num_scope.
Infix "⊘" := ndiv (at level 40, left associativity) : num_scope.

(** A box is one row of an [(N, 4)] tensor. *)
Definition box : Type := num * num * num * num.

Definition col0 (b : box) : num := b.1.1.1.
Definition col1 (b : box) : num := b.1.1.2.
Definition col2 (b : box) : num := b.1.2.
Definition col3 (b : box) : num := b.2.

(** A box with four real coordinates, and the tensor row that holds it. *)
Definition rbox : Type := R * R * R * R.

Definition fbox (b : rbox) : box :=
  let '(c0, c1, c2, c3) := b in (Some c0, Some c1, Some c2, Some c3).

(** [coord2 >= coord1] on each axis. *)
Definition well_formed (b : rbox) : Prop :=
  let '(c0, c1, c2, c3) := b in c0 <= c2 ∧ c1 <= c3.

(** ** Outcomes

    [Raises]: the Python code raises an exception.  [NonFinite]: the code
    returns, but a comparison or reduction met a value that is not a real
    number, so that the exact model does not determine the result. *)

Inductive outcome (A : Type) : Type :=
  | Ok (a : A)
  | Raises
  | NonFinite.
Arguments Ok {A} a.
Arguments Raises {A}.
Arguments NonFinite {A}.

#[global] Instance outcome_ret : MRet outcome := λ A a, Ok a.
#[global] Instance outcome_bind : MBind outcome := λ A B f m,
  match m with
  | Ok a => f a
  | Raises => Raises
  | NonFinite => NonFinite
  end.

(** ** numpy helpers used by [generate_anchors] *)

(** [np.meshgrid(xs, ys)] with the default ['xy'] indexing: two arrays of
    shape [(len ys, len xs)], the first repeating [xs] along the rows, the
    second constant along each row. *)
Definition meshgrid {A B : Type} (xs : list A) (ys : list B)
  : list (list A) * list (list B) :=
  (map (λ _, xs) ys, map (λ y, map (λ _, y) xs) ys).

(** [a.flatten()], and the raveling [np.meshgrid] applies to an argument
    that is not 1-D; also [reshape([-1, 2])] of a [(P, k, 2)] array. *)
Definition flatten {A : Type} (a : list (list A)) : list A := concat a.

(** The values of [np.arange(start, stop, step)] on integers: [start],
    [start + step], ... while below [stop]. *)
Fixpoint arange_loop (fuel cur stop step : nat) : list nat :=
  match fuel with
  | O => []
  | S fuel' =>
      if (cur <? stop)%nat
      then cur :: arange_loop fuel' (cur + step) stop step
      else []
  end.

(** [np.arange] raises [ZeroDivisionError] on a zero step. *)
Definition arange (start stop step : nat) : outcome (list nat) :=
  if (step =? 0)%nat then Raises
  else Ok (arange_loop (stop - start) start stop step).

(** [np.stack([a, b], axis=2)] of two [(P, k)] arrays. *)
Definition stack2 {A : Type} (a b : list (list A)) : list (list (A * A)) :=
  zip_with (zip_with pair) a b.

(** [np.concatenate([lo, hi], axis=1)] of two [(N, 2)] arrays. *)
Definition concatenate_axis1 (lo hi : list (num * num)) : list box :=
  zip_with (λ l h, (l.1, l.2, h.1, h.2)) lo hi.

Definition half : num := Some (1 / 2).

(** ** [AnchorGenerator.generate_anchors] (anchors.py, lines 11-47) *)

Definition generate_anchors (fmap_shape : nat * nat)
    (fmap_downsampled_rate : R) (scales ratios : list R)
    (anchor_stride : nat) : outcome (list box) :=
  (* Get all combinations of scales and ratios *)
  let '(scales, ratios) := meshgrid (map Some scales) (map Some ratios) in
  let scales := flatten scales in
  let ratios := flatten ratios in
  (* Enumerate heights and widths from scales and ratios *)
  let heights := zip_with ndiv scales (map nsqrt ratios) in
  let widths := zip_with nmul scales (map nsqrt ratios) in
  (* Enumerate shifts in feature space *)
  ys ← arange 0 fmap_shape.1 anchor_stride;
  xs ← arange 0 fmap_shape.2 anchor_stride;
  let shifts_y :=
    map (λ n : nat, (Some (INR n) ⊘ Some fmap_downsampled_rate)%num) ys in
  let shifts_x :=
    map (λ n : nat, (Some (INR n) ⊘ Some fmap_downsampled_rate)%num) xs in
  let '(shifts_x, shifts_y) := meshgrid shifts_x shifts_y in
  (* Enumerate combinations of shifts, widths, and heights *)
  let '(box_widths, box_centers_x) := meshgrid widths (flatten shifts_x) in
  let '(box_heights, box_centers_y) := meshgrid heights (flatten shifts_y) in
  (* Reshape to get a list of (y, x) and a list of (h, w) *)
  let box_centers := flatten (stack2 box_centers_y box_centers_x) in
  let box_sizes := flatten (stack2 box_heights box_widths) in
  (* Convert to corner coordinates (y1, x1, y2, x2) *)
  let boxes :=
    concatenate_axis1
      (zip_with (λ c s, (c.1 ⊖ half ⊗ s.1, c.2 ⊖ half ⊗ s.2)%num)
         box_centers box_sizes)
      (zip_with (λ c s, (c.1 ⊕ half ⊗ s.1, c.2 ⊕ half ⊗ s.2)%num)
         box_centers box_sizes) in
  Ok boxes.

(** *** The anchor set as the specification describes it *)

Definition ceil_div (n s : nat) : nat := ((n + s - 1) / s)%nat.

(** [center ± 0.5 * size], in [(y1, x1, y2, x2)] order. *)
Definition anchor_box (cy cx h w : num) : box :=
  (cy ⊖ half ⊗ h, cx ⊖ half ⊗ w, cy ⊕ half ⊗ h, cx ⊕ half ⊗ w)%num.

(** [height = scale / sqrt ratio], [width = scale * sqrt ratio]. *)
Definition anchor_size (scale ratio : R) : num * num :=
  ((Some scale ⊘ nsqrt (Some ratio))%num,
   (Some scale ⊗ nsqrt (Some ratio))%num).

(** The [i]-th position of the strided grid, rescaled by
    [1 / fmap_downsampled_rate]. *)
Definition grid_center (stride : nat) (rate : R) (i : nat) : num :=
  (Some (INR (i * stride)) ⊘ Some rate)%num.

(** Grid positions in the outer loops, [(scale, ratio)] pairs in the inner
    loops. *)
Definition anchors_spec (fmap_shape : nat * nat) (rate : R)
    (scales ratios : list R) (stride : nat) : list box :=
  iy ← seq 0 (ceil_div fmap_shape.1 stride);
  ix ← seq 0 (ceil_div fmap_shape.2 stride);
  ratio ← ratios;
  scale ← scales;
  [anchor_box (grid_center stride rate iy) (grid_center stride rate ix)
     (anchor_size scale ratio).1 (anchor_size scale ratio).2].

(** ** torch helpers used by [calc_overlap] *)

(** [v.view(-1, 1).repeat(1, n)]: entry [(i, j)] is [v[i]]. *)
Definition col_repeat (v : list num) (n : nat) : list (list num) :=
  map (λ x, replicate n x) v.

(** [v.view(1, -1).repeat(n, 1)]: entry [(i, j)] is [v[j]]. *)
Definition row_repeat (v : list num) (n : nat) : list (list num) :=
  replicate n v.

(** An elementwise binary operation on two 2-D tensors of one shape. *)
Definition mat_zip (f : num → num → num) (a b : list (list num))
  : list (list num) :=
  zip_with (zip_with f) a b.

(** An elementwise operation with a scalar (a broadcast one-element
    tensor). *)
Definition mat_map (f : num → num) (a : list (list num)) : list (list num) :=
  map (map f) a.

Definition zero : num := Some 0.
Definition one : num := Some 1.

(** ** [calc_overlap] (anchors.py, lines 50-84)

    The [try]/[except] of lines 68-74 evaluates one and the same
    expression with the zero tensor on either device; the debug message is
    not part of the result. *)

Definition calc_overlap (query_boxes ref_boxes : list box)
  : list (list num) :=
  let n_queries := length query_boxes in
  let n_refs := length ref_boxes in
  let q_xmin := col_repeat (map col0 query_boxes) n_refs in
  let q_ymin := col_repeat (map col1 query_boxes) n_refs in
  let q_xmax := col_repeat (map col2 query_boxes) n_refs in
  let q_ymax := col_repeat (map col3 query_boxes) n_refs in
  let r_xmin := row_repeat (map col0 ref_boxes) n_queries in
  let r_ymin := row_repeat (map col1 ref_boxes) n_queries in
  let r_xmax := row_repeat (map col2 ref_boxes) n_queries in
  let r_ymax := row_repeat (map col3 ref_boxes) n_queries in
  let intersect_left := mat_zip nmax q_xmin r_xmin in
  let intersect_top := mat_zip nmax q_ymin r_ymin in
  let intersect_right := mat_zip nmin q_xmax r_xmax in
  let intersect_bottom := mat_zip nmin q_ymax r_ymax in
  let intersect_areas :=
    mat_zip nmul
      (mat_map (nmax zero)
         (mat_map (λ d, d ⊕ one)%num
            (mat_zip nsub intersect_right intersect_left)))
      (mat_map (nmax zero)
         (mat_map (λ d, d ⊕ one)%num
            (mat_zip nsub intersect_bottom intersect_top))) in
  let query_areas :=
    col_repeat
      (map (λ b, ((col2 b ⊖ col0 b ⊕ one) ⊗ (col3 b ⊖ col1 b ⊕ one))%num)
         query_boxes)
      n_refs in
  let ref_areas :=
    row_repeat
      (map (λ b, ((col2 b ⊖ col0 b ⊕ one) ⊗ (col3 b ⊖ col1 b ⊕ one))%num)
         ref_boxes)
      n_queries in
  let overlaps :=
    mat_zip ndiv intersect_areas
      (mat_zip nsub (mat_zip nadd query_areas ref_areas) intersect_areas) in
  overlaps.

(** *** The entry of one pair of boxes *)

Definition box_area (b : box) : num :=
  ((col2 b ⊖ col0 b ⊕ one) ⊗ (col3 b ⊖ col1 b ⊕ one))%num.

Definition intersect_area (q r : box) : num :=
  (nmax zero (nmin (col2 q) (col2 r) ⊖ nmax (col0 q) (col0 r) ⊕ one)
   ⊗ nmax zero (nmin (col3 q) (col3 r) ⊖ nmax (col1 q) (col1 r) ⊕ one))%num.

Definition union_area (q r : box) : num :=
  (box_area q ⊕ box_area r ⊖ intersect_area q r)%num.

Definition iou (q r : box) : num :=
  (intersect_area q r ⊘ union_area q r)%num.

(** An entry of a 2-D tensor. *)
Definition entry {A : Type} (m : list (list A)) (i j : nat) : option A :=
  row ← m !! i; row !! j.

(** ** torch helpers used by [calc_anchor_match] *)

#[global] Instance Rlt_decision (a b : R) : Decision (a < b) := Rlt_dec a b.

(** The real numbers of a tensor all of whose elements are real. *)
Fixpoint reals (l : list num) : outcome (list R) :=
  match l with
  | [] => Ok []
  | Some x :: l' => xs ← reals l'; Ok (x :: xs)
  | None :: _ => NonFinite
  end.

(** The running maximum and its index; a later element replaces the
    maximum only when strictly greater, so that the first maximal element
    is the one reported. *)
Fixpoint max_from (best : R) (best_i i : nat) (l : list R) : R * nat :=
  match l with
  | [] => (best, best_i)
  | x :: l' =>
      if decide (best < x) then max_from x i (S i) l'
      else max_from best best_i (S i) l'
  end.

(** The maximum of a 1-D slice and the index of its first occurrence; the
    reduction of an empty slice raises. *)
Definition reduce_max (l : list num) : outcome (R * nat) :=
  xs ← reals l;
  match xs with
  | [] => Raises
  | x :: xs' => Ok (max_from x 0 1 xs')
  end.

(** Column [j] of a 2-D tensor. *)
Definition column (j : nat) (m : list (list num)) : list num :=
  map (λ row : list num, default (None : num) (row !! j)) m.

Fixpoint map_outcome {A B : Type} (f : A → outcome B) (l : list A)
  : outcome (list B) :=
  match l with
  | [] => Ok []
  | a :: l' => b ← f a; bs ← map_outcome f l'; Ok (b :: bs)
  end.

(** [m.max(dim=1)] of a tensor of shape [(n_rows, n_cols)]: values and
    indices, one per row. *)
Definition max_dim1 (n_cols : nat) (m : list (list num))
  : outcome (list R * list nat) :=
  if (n_cols =? 0)%nat then Raises
  else rs ← map_outcome reduce_max m; Ok (map fst rs, map snd rs).

(** [m.argmax(dim=0)] of a tensor of shape [(n_rows, n_cols)]: one row
    index per column. *)
Definition argmax_dim0 (n_rows n_cols : nat) (m : list (list num))
  : outcome (list nat) :=
  if (n_rows =? 0)%nat then Raises
  else map_outcome (λ j, r ← reduce_max (column j m); Ok r.2) (seq 0 n_cols).

(** [t[idx]] for a tensor of indices: an index out of range raises. *)
Definition gather {A : Type} (t : list A) (idx : list nat)
  : outcome (list A) :=
  map_outcome (λ i, match t !! i with Some a => Ok a | None => Raises end) idx.

(** [t[idx] = v] for a tensor of indices. *)
Definition index_fill (t : list Z) (idx : list nat) (v : Z) : list Z :=
  foldl (λ t i, <[i := v]> t) t idx.

(** [t[mask] = v] for a boolean mask. *)
Definition mask_fill (t : list Z) (mask : list bool) (v : Z) : list Z :=
  zip_with (λ x (b : bool), if b then v else x) t mask.

(** [t[mask]] for a boolean mask. *)
Fixpoint masked_select {A : Type} (t : list A) (mask : list bool) : list A :=
  match t, mask with
  | x :: t', b :: mask' =>
      if b then x :: masked_select t' mask' else masked_select t' mask'
  | _, _ => []
  end.

(** [boxes * s] for a scalar [s]. *)
Definition scale_box (s : R) (b : box) : box :=
  (col0 b ⊗ Some s, col1 b ⊗ Some s, col2 b ⊗ Some s, col3 b ⊗ Some s)%num.

(** ** [calc_anchor_match] (anchors.py, lines 87-107)

    Lines 97-99 move [match] and [anchor_idx] to the device of the other
    tensors and do not change their values. *)

Definition calc_anchor_match (anchors gt_boxes : list box)
    (fmap_downsampled_rate : R) (match_thresh_hi match_thresh_lo : R)
  : outcome (list nat * list nat * list box) :=
  let gt_boxes := map (scale_box fmap_downsampled_rate) gt_boxes in
  let overlaps := calc_overlap anchors gt_boxes in
  '(max_ious_with_gt, assigned_gt_idx) ←
    max_dim1 (length gt_boxes) overlaps;
  assigned_gt_boxes ← gather gt_boxes assigned_gt_idx;
  idx_closest_to_gt ←
    argmax_dim0 (length anchors) (length gt_boxes) overlaps;
  let anchor_idx := seq 0 (length anchors) in
  let match_ := replicate (length anchors) (-1)%Z in
  let match_ := index_fill match_ idx_closest_to_gt 1%Z in
  let match_ :=
    mask_fill match_
      (map (λ v, bool_decide (match_thresh_hi < v)) max_ious_with_gt) 1%Z in
  let match_ :=
    mask_fill match_
      (map (λ v, bool_decide (v < match_thresh_lo)) max_ious_with_gt) 0%Z in
  let pos_idx := masked_select anchor_idx (map (Z.eqb 1) match_) in
  let neg_idx := masked_select anchor_idx (map (Z.eqb 0) match_) in
  Ok (pos_idx, neg_idx, assigned_gt_boxes).

(** The default thresholds [match_thresh_hi=.7], [match_thresh_lo=.3]. *)
Definition default_thresh_hi : R := 7 / 10.
Definition default_thresh_lo : R := 3 / 10.

(** ** torch helpers used by [calc_delta] *)

(** An elementwise binary operation on two 1-D tensors: tensors of one
    length are combined pointwise, a one-element tensor is broadcast, any
    other pair of lengths raises. *)
Definition broadcast2 (f : num → num → num) (a b : list num)
  : outcome (list num) :=
  match a, b with
  | [x], _ => Ok (map (f x) b)
  | _, [y] => Ok (map (λ x, f x y) a)
  | _, _ =>
      if decide (length a = length b) then Ok (zip_with f a b) else Raises
  end.

(** Consecutive groups of four elements, in row-major order. *)
Fixpoint view4 (flat : list num) : list box :=
  match flat with
  | a :: b :: c :: d :: flat' => (a, b, c, d) :: view4 flat'
  | _ => []
  end.

(** [flat.view(rows, 4)]: raises unless [flat] has [rows * 4] elements. *)
Definition view (rows : nat) (flat : list num) : outcome (list box) :=
  if decide (length flat = (rows * 4)%nat) then Ok (view4 flat) else Raises.

(** [t / v] for an [(N, 4)] tensor [t] and a 4-element tensor [v]. *)
Definition div_rows (t : list box) (v : box) : list box :=
  map (λ row,
         (col0 row ⊘ col0 v, col1 row ⊘ col1 v,
          col2 row ⊘ col2 v, col3 row ⊘ col3 v)%num) t.

(** ** [calc_delta] (anchors.py, lines 110-125) *)

Definition calc_delta (boxes ref_boxes : list box) (delta_std_dev : box)
  : outcome (list box) :=
  let ref_w := zip_with nsub (map col2 ref_boxes) (map col0 ref_boxes) in
  let ref_h := zip_with nsub (map col3 ref_boxes) (map col1 ref_boxes) in
  let ref_center_x := zip_with nadd (map col0 ref_boxes) (map (nmul half) ref_w) in
  let ref_center_y := zip_with nadd (map col1 ref_boxes) (map (nmul half) ref_h) in
  let w := zip_with nsub (map col2 boxes) (map col0 boxes) in
  let h := zip_with nsub (map col3 boxes) (map col1 boxes) in
  let center_x := zip_with nadd (map col0 boxes) (map (nmul half) w) in
  let center_y := zip_with nadd (map col1 boxes) (map (nmul half) h) in
  dx ← broadcast2 nsub ref_center_x center_x;
  dx ← broadcast2 ndiv dx w;
  dy ← broadcast2 nsub ref_center_y center_y;
  dy ← broadcast2 ndiv dy h;
  dw ← broadcast2 ndiv ref_w w;
  dh ← broadcast2 ndiv ref_h h;
  delta ← view (length boxes) (dx ++ dy ++ map nlog dw ++ map nlog dh);
  Ok (div_rows delta delta_std_dev).

(** *** The regression target of one pair of boxes, as the specification
    describes it *)

Definition delta_spec (b r std : box) : box :=
  let ref_w := (col2 r ⊖ col0 r)%num in
  let ref_h := (col3 r ⊖ col1 r)%num in
  let ref_center_x := (col0 r ⊕ half ⊗ ref_w)%num in
  let ref_center_y := (col1 r ⊕ half ⊗ ref_h)%num in
  let w := (col2 b ⊖ col0 b)%num in
  let h := (col3 b ⊖ col1 b)%num in
  let center_x := (col0 b ⊕ half ⊗ w)%num in
  let center_y := (col1 b ⊕ half ⊗ h)%num in
  ((ref_center_x ⊖ center_x) ⊘ w ⊘ col0 std,
   (ref_center_y ⊖ center_y) ⊘ h ⊘ col1 std,
   nlog (ref_w ⊘ w) ⊘ col2 std,
   nlog (ref_h ⊘ h) ⊘ col3 std)%num.

(** ** Tabulated tensors

    [grid F ys xs] is the 2-D tensor whose entry [(i, j)] is
    [F ys[i] xs[j]]; the tensors built by [meshgrid], [col_repeat] and
    [row_repeat] are all of this form. *)

Definition grid {A B C : Type} (F : A → B → C) (ys : list A) (xs : list B)
  : list (list C) :=
  map (λ y, map (F y) xs) ys.

(** The anchor centers [(cy, cx)], row by row, and the anchor sizes
    [(height, width)], ratio by ratio. *)
Definition anchor_centers (fmap_shape : nat * nat) (rate : R) (stride : nat)
  : list (num * num) :=
  concat
    (grid (λ iy ix, (grid_center stride rate iy, grid_center stride rate ix))
       (seq 0 (ceil_div fmap_shape.1 stride))
       (seq 0 (ceil_div fmap_shape.2 stride))).

Definition anchor_sizes (scales ratios : list R) : list (num * num) :=
  concat (grid (λ ratio scale, anchor_size scale ratio) ratios scales).

(** ** The overlap of two boxes with real coordinates

    The pixel-inclusive area, intersection and union that [calc_overlap]
    computes, written over the reals. *)

Definition area_R (b : rbox) : R :=
  let '(x1, y1, x2, y2) := b in (x2 - x1 + 1) * (y2 - y1 + 1).

Definition inter_R (q r : rbox) : R :=
  let '(qx1, qy1, qx2, qy2) := q in
  let '(rx1, ry1, rx2, ry2) := r in
  Rmax 0 (Rmin qx2 rx2 - Rmax qx1 rx1 + 1)
  * Rmax 0 (Rmin qy2 ry2 - Rmax qy1 ry1 + 1).

Definition union_R (q r : rbox) : R := area_R q + area_R r - inter_R q r.


(** The rectangles are at least one unit apart on at least one axis. *)
Definition separated_R (q r : rbox) : Prop :=
  let '(qx1, qy1, qx2, qy2) := q in
  let '(rx1, ry1, rx2, ry2) := r in
  qx2 + 1 <= rx1 ∨ rx2 + 1 <= qx1 ∨ qy2 + 1 <= ry1 ∨ ry2 + 1 <= qy1.


(** Case analysis on the comparisons inside [Rmax] and [Rmin]. *)
Ltac real_cases :=
  unfold Rmax, Rmin;
  repeat match goal with
         | |- context [Rle_dec ?x ?y] => destruct (Rle_dec x y)
         end;
  try lra.

(** Evaluation of [Rmax] and [Rmin] on arguments that linear arithmetic
    can compare, innermost first. *)
Ltac no_minmax t :=
  lazymatch t with
  | context [Rmax _ _] => fail
  | context [Rmin _ _] => fail
  | _ => idtac
  end.

Ltac real_eval :=
  repeat match goal with
         | |- context [Rmax ?x ?y] =>
             no_minmax x; no_minmax y;
             first [ rewrite (Rmax_left x y) by lra
                   | rewrite (Rmax_right x y) by lra ]
         | |- context [Rmin ?x ?y] =>
             no_minmax x; no_minmax y;
             first [ rewrite (Rmin_left x y) by lra
                   | rewrite (Rmin_right x y) by lra ]
         end;
  try lra.

(** ** The labels of [calc_anchor_match]

    The tensor [match] after the three assignments of lines 100-102:
    [1] positive, [0] negative, [-1] ignored. *)

Definition anchor_labels (n_anchors : nat) (idx_closest_to_gt : list nat)
    (max_ious_with_gt : list R) (match_thresh_hi match_thresh_lo : R)
  : list Z :=
  let match_ := replicate n_anchors (-1)%Z in
  let match_ := index_fill match_ idx_closest_to_gt 1%Z in
  let match_ :=
    mask_fill match_
      (map (λ v, bool_decide (match_thresh_hi < v)) max_ious_with_gt) 1%Z in
  mask_fill match_
    (map (λ v, bool_decide (v < match_thresh_lo)) max_ious_with_gt) 0%Z.

(** The overlap matrix that [calc_anchor_match] reduces. *)
Definition match_overlaps (anchors gt_boxes : list box) (rate : R)
  : list (list num) :=
  calc_overlap anchors (map (scale_box rate) gt_boxes).

(** The anchor with the highest overlap with ground-truth box [j], and
    that overlap. *)
Definition closest_anchor (anchors gt_boxes : list box) (rate : R) (j : nat)
  : outcome (R * nat) :=
  reduce_max (column j (match_overlaps anchors gt_boxes rate)).


(** The side conditions of an overlap of two boxes with numeric
    coordinates: the intersection, the union, and the quotient. *)
Ltac iou_side := unfold union_R, inter_R, area_R; real_eval.

(** ** The 4x4 scenario

    The anchors of a [4x4] feature map with downsample rate 1, scale 4,
    ratio 1 and stride 1: the anchor of grid cell [(iy, ix)], at index
    [4 * iy + ix], is the [4x4] box centered on [(iy, ix)]. *)
Definition scenario_anchors : list rbox :=
  [(-2, -2, 2, 2); (-2, -1, 2, 3); (-2, 0, 2, 4); (-2, 1, 2, 5);
   (-1, -2, 3, 2); (-1, -1, 3, 3); (-1, 0, 3, 4); (-1, 1, 3, 5);
   (0, -2, 4, 2); (0, -1, 4, 3); (0, 0, 4, 4); (0, 1, 4, 5);
   (1, -2, 5, 2); (1, -1, 5, 3); (1, 0, 5, 4); (1, 1, 5, 5)].

(** Their overlaps with the ground-truth box [(0, 0, 4, 4)]. *)
Definition scenario_ious : list R :=
  [9 / 41; 12 / 38; 15 / 35; 12 / 38;
   12 / 38; 16 / 34; 20 / 30; 16 / 34;
   15 / 35; 20 / 30; 1; 20 / 30;
   12 / 38; 16 / 34; 20 / 30; 16 / 34].

(** Evaluation of the threshold comparisons on numeric overlaps. *)
Ltac thresholds :=
  repeat match goal with
         | |- context [bool_decide (?a < ?b)] =>
             first [ rewrite (bool_decide_eq_true_2 (a < b)) by lra
                   | rewrite (bool_decide_eq_false_2 (a < b)) by lra ]
         end.

(** The four components of the regression target of one pair of boxes,
    before the division by the std-dev. *)
Definition delta_dx (b r : box) : num :=
  ((col0 r ⊕ half ⊗ (col2 r ⊖ col0 r) ⊖ (col0 b ⊕ half ⊗ (col2 b ⊖ col0 b)))
   ⊘ (col2 b ⊖ col0 b))%num.

Definition delta_dy (b r : box) : num :=
  ((col1 r ⊕ half ⊗ (col3 r ⊖ col1 r) ⊖ (col1 b ⊕ half ⊗ (col3 b ⊖ col1 b)))
   ⊘ (col3 b ⊖ col1 b))%num.

Definition delta_dw (b r : box) : num :=
  nlog ((col2 r ⊖ col0 r) ⊘ (col2 b ⊖ col0 b))%num.

Definition delta_dh (b r : box) : num :=
  nlog ((col3 r ⊖ col1 r) ⊘ (col3 b ⊖ col1 b))%num.

(** ** Anchors with real coordinates

    The anchor set over the reals, for inputs on which every coordinate is
    a real number (a non-zero downsample rate and positive ratios). *)

Definition anchor_rbox (cy cx h w : R) : rbox :=
  (cy - 1 / 2 * h, cx - 1 / 2 * w, cy + 1 / 2 * h, cx + 1 / 2 * w).

Definition anchors_R (fmap_shape : nat * nat) (rate : R)
    (scales ratios : list R) (stride : nat) : list rbox :=
  iy ← seq 0 (ceil_div fmap_shape.1 stride);
  ix ← seq 0 (ceil_div fmap_shape.2 stride);
  ratio ← ratios;
  scale ← scales;
  [anchor_rbox (INR (iy * stride) / rate) (INR (ix * stride) / rate)
     (scale / sqrt ratio) (scale * sqrt ratio)].

(** The box without any real coordinate. *)
Definition nan_box : box := (None, None, None, None).

(** A box moved by [(dx, dy)], and a box inside another one. *)
Definition shift_rbox (dx dy : R) (b : rbox) : rbox :=
  let '(x1, y1, x2, y2) := b in (x1 + dx, y1 + dy, x2 + dx, y2 + dy).

Definition inside_R (q r : rbox) : Prop :=
  let '(qx1, qy1, qx2, qy2) := q in
  let '(rx1, ry1, rx2, ry2) := r in
  rx1 <= qx1 ∧ qx2 <= rx2 ∧ ry1 <= qy1 ∧ qy2 <= ry2.

(** The sequence that [torch.cat] builds in [calc_delta]: the x-offsets
    of all pairs, then their y-offsets, then the log-width and the
    log-height ratios. *)
Definition delta_flat (boxes ref_boxes : list box) : list num :=
  zip_with delta_dx boxes ref_boxes ++ zip_with delta_dy boxes ref_boxes
  ++ zip_with delta_dw boxes ref_boxes ++ zip_with delta_dh boxes ref_boxes.

(** The regression target of one pair of boxes with real coordinates. *)
Definition delta_R (b r std : rbox) : rbox :=
  let '(x1, y1, x2, y2) := b in
  let '(rx1, ry1, rx2, ry2) := r in
  let '(s0, s1, s2, s3) := std in
  ((rx1 + 1 / 2 * (rx2 - rx1) - (x1 + 1 / 2 * (x2 - x1))) / (x2 - x1) / s0,
   (ry1 + 1 / 2 * (ry2 - ry1) - (y1 + 1 / 2 * (y2 - y1))) / (y2 - y1) / s1,
   ln ((rx2 - rx1) / (x2 - x1)) / s2,
   ln ((ry2 - ry1) / (y2 - y1)) / s3).

(** Positive width and height; no zero entry. *)
Definition positive_size (b : rbox) : Prop :=
  let '(x1, y1, x2, y2) := b in x1 < x2 ∧ y1 < y2.

Definition nonzero4 (v : rbox) : Prop :=
  let '(s0, s1, s2, s3) := v in s0 ≠ 0 ∧ s1 ≠ 0 ∧ s2 ≠ 0 ∧ s3 ≠ 0.

(** * Properties *)

(** ** Arithmetic on tensor elements *)

Lemma ndiv_Some (x y : R) : y ≠ 0 → (Some x ⊘ Some y)%num = Some (x / y).
Proof. intros Hy. unfold ndiv. destruct (Req_dec_T y 0); [done | done]. Qed.

Lemma ndiv_zero (x : R) : (Some x ⊘ Some 0)%num = None.
Proof. unfold ndiv. destruct (Req_dec_T 0 0); [done | lra]. Qed.

Lemma nsqrt_Some (x : R) : 0 <= x → nsqrt (Some x) = Some (sqrt x).
Proof. intros Hx. unfold nsqrt. destruct (Rle_dec 0 x); [done | lra]. Qed.

Lemma nlog_Some (x : R) : 0 < x → nlog (Some x) = Some (ln x).
Proof. intros Hx. unfold nlog. destruct (Rlt_dec 0 x); [done | lra]. Qed.

(** ** Tabulated tensors *)

Section grids.
Context {A B C : Type}.
Implicit Types (ys : list A) (xs : list B).

Lemma meshgrid_fst xs ys : (meshgrid xs ys).1 = grid (λ _ x, x) ys xs.
Proof.
  unfold meshgrid, grid. simpl. apply map_ext. intros _.
  symmetry. apply map_id.
Qed.

Lemma meshgrid_snd xs ys : (meshgrid xs ys).2 = grid (λ y _, y) ys xs.
Proof. reflexivity. Qed.

Lemma grid_length (F : A → B → C) ys xs : length (grid F ys xs) = length ys.
Proof. unfold grid. by rewrite length_map. Qed.

Lemma concat_grid_length (F : A → B → C) ys xs :
  length (concat (grid F ys xs)) = (length ys * length xs)%nat.
Proof.
  induction ys as [|y ys IH]; simpl; [done|].
  by rewrite length_app, length_map, IH.
Qed.

Lemma grid_lookup (F : A → B → C) ys xs i j y x :
  ys !! i = Some y → xs !! j = Some x →
  entry (grid F ys xs) i j = Some (F y x).
Proof.
  intros Hy Hx. unfold entry, grid.
  rewrite list_lookup_fmap, Hy. simpl.
  by rewrite list_lookup_fmap, Hx.
Qed.
End grids.

Lemma zip_with_map_map {A B C D : Type} (f : B → C → D) (F : A → B)
    (G : A → C) (l : list A) :
  zip_with f (map F l) (map G l) = map (λ a, f (F a) (G a)) l.
Proof. induction l as [|a l IH]; simpl; [done | by rewrite IH]. Qed.

Lemma zip_with_grid {A B C D E : Type} (f : C → D → E) (F : A → B → C)
    (G : A → B → D) (ys : list A) (xs : list B) :
  zip_with (zip_with f) (grid F ys xs) (grid G ys xs)
  = grid (λ y x, f (F y x) (G y x)) ys xs.
Proof.
  unfold grid. rewrite zip_with_map_map. apply map_ext. intros y.
  apply zip_with_map_map.
Qed.

Lemma map_grid {A B C D : Type} (g : C → D) (F : A → B → C) (ys : list A)
    (xs : list B) :
  map (map g) (grid F ys xs) = grid (λ y x, g (F y x)) ys xs.
Proof.
  unfold grid. rewrite map_map. apply map_ext. intros y. apply map_map.
Qed.

Lemma grid_map {A A' B B' C : Type} (F : A' → B' → C) (g : A → A')
    (h : B → B') (ys : list A) (xs : list B) :
  grid F (map g ys) (map h xs) = grid (λ y x, F (g y) (h x)) ys xs.
Proof.
  unfold grid. rewrite map_map. apply map_ext. intros y. apply map_map.
Qed.

Lemma zip_with_concat_grid {A B C D E : Type} (f : C → D → E)
    (F : A → B → C) (G : A → B → D) (ys : list A) (xs : list B) :
  zip_with f (concat (grid F ys xs)) (concat (grid G ys xs))
  = concat (grid (λ y x, f (F y x) (G y x)) ys xs).
Proof.
  induction ys as [|y ys IH]; simpl; [done|].
  rewrite zip_with_app by (by rewrite !length_map).
  by rewrite IH, zip_with_map_map.
Qed.

Lemma map_concat_grid {A B C D : Type} (g : C → D) (F : A → B → C)
    (ys : list A) (xs : list B) :
  map g (concat (grid F ys xs)) = concat (grid (λ y x, g (F y x)) ys xs).
Proof.
  induction ys as [|y ys IH]; simpl; [done|].
  by rewrite map_app, IH, map_map.
Qed.

Lemma map_bind_singleton {A B : Type} (f : A → B) (l : list A) :
  map f l = x ← l; [f x].
Proof. induction l as [|a l IH]; simpl; [done | by rewrite IH]. Qed.

Lemma concat_grid_bind {A B C : Type} (F : A → B → C) (ys : list A)
    (xs : list B) :
  concat (grid F ys xs) = y ← ys; x ← xs; [F y x].
Proof.
  induction ys as [|y ys IH]; simpl; [done|].
  by rewrite IH, map_bind_singleton.
Qed.

Lemma bind_bind_singleton {A B C : Type} (g : A → B) (k : B → list C)
    (l : list A) :
  (x ← l; [g x]) ≫= k = x ← l; k (g x).
Proof.
  induction l as [|a l IH]; [done|].
  rewrite !bind_cons, bind_app, IH. simpl. by rewrite app_nil_r.
Qed.

Lemma concat_grid_concat {A B C D E : Type} (H : C → D → E) (G : A → B → C)
    (ys : list A) (xs : list B) (qs : list D) :
  concat (grid H (concat (grid G ys xs)) qs)
  = y ← ys; x ← xs; q ← qs; [H (G y x) q].
Proof.
  rewrite (concat_grid_bind H), (concat_grid_bind G).
  induction ys as [|y ys IH]; [done|].
  by rewrite !bind_cons, bind_app, IH, bind_bind_singleton.
Qed.

(** ** [np.arange] *)

Lemma ceil_div_succ (n s : nat) :
  (0 < n)%nat → (0 < s)%nat → ceil_div n s = S (ceil_div (n - s) s).
Proof.
  intros Hn Hs. unfold ceil_div.
  replace (n + s - 1)%nat with ((n - 1) + 1 * s)%nat by lia.
  rewrite Nat.div_add by lia.
  destruct (le_lt_dec s n) as [Hle|Hlt].
  - replace (n - s + s - 1)%nat with (n - 1)%nat by lia. lia.
  - replace (n - s + s - 1)%nat with (s - 1)%nat by lia.
    rewrite !Nat.div_small by lia. lia.
Qed.

Lemma ceil_div_zero (s : nat) : (0 < s)%nat → ceil_div 0 s = 0%nat.
Proof. intros Hs. unfold ceil_div. apply Nat.div_small. lia. Qed.

Lemma arange_loop_spec (fuel cur stop step : nat) :
  (0 < step)%nat → (stop - cur ≤ fuel)%nat →
  arange_loop fuel cur stop step
  = map (λ i, (cur + i * step)%nat) (seq 0 (ceil_div (stop - cur) step)).
Proof.
  intros Hstep. revert cur.
  induction fuel as [|fuel IH]; intros cur Hfuel; simpl.
  - replace (stop - cur)%nat with 0%nat by lia.
    by rewrite ceil_div_zero.
  - destruct (Nat.ltb_spec cur stop) as [Hlt|Hge].
    + rewrite (ceil_div_succ (stop - cur)) by lia. simpl.
      rewrite IH by lia. rewrite <- seq_shift, map_map.
      f_equal; [lia|].
      replace (stop - (cur + step))%nat with (stop - cur - step)%nat by lia.
      apply map_ext. intros i. lia.
    + replace (stop - cur)%nat with 0%nat by lia.
      by rewrite ceil_div_zero.
Qed.

Lemma arange_spec (stop step : nat) :
  step ≠ 0%nat →
  arange 0 stop step
  = Ok (map (λ i, (i * step)%nat) (seq 0 (ceil_div stop step))).
Proof.
  intros Hstep. unfold arange.
  destruct (Nat.eqb_spec step 0) as [->|_]; [done|].
  rewrite arange_loop_spec by lia.
  by rewrite Nat.sub_0_r.
Qed.

(** ** [generate_anchors] *)

Lemma stack2_centers (P Q : list (num * num)) :
  flatten (stack2 (meshgrid (map fst Q) (map fst P)).2
                  (meshgrid (map snd Q) (map snd P)).2)
  = concat (grid (λ p _, p) P Q).
Proof.
  unfold flatten, stack2. rewrite !meshgrid_snd, !grid_map, zip_with_grid.
  f_equal. unfold grid. apply map_ext. intros [cy cx]. done.
Qed.

Lemma stack2_sizes (P Q : list (num * num)) :
  flatten (stack2 (meshgrid (map fst Q) (map fst P)).1
                  (meshgrid (map snd Q) (map snd P)).1)
  = concat (grid (λ _ q, q) P Q).
Proof.
  unfold flatten, stack2. rewrite !meshgrid_fst, !grid_map, zip_with_grid.
  f_equal. unfold grid. apply map_ext. intros _.
  apply map_ext. intros [h w]. done.
Qed.

Lemma boxes_of_centers_sizes (P Q : list (num * num)) :
  concatenate_axis1
    (zip_with (λ c s, (c.1 ⊖ half ⊗ s.1, c.2 ⊖ half ⊗ s.2)%num)
       (concat (grid (λ p _, p) P Q)) (concat (grid (λ _ q, q) P Q)))
    (zip_with (λ c s, (c.1 ⊕ half ⊗ s.1, c.2 ⊕ half ⊗ s.2)%num)
       (concat (grid (λ p _, p) P Q)) (concat (grid (λ _ q, q) P Q)))
  = concat (grid (λ p q, anchor_box p.1 p.2 q.1 q.2) P Q).
Proof.
  unfold concatenate_axis1. by rewrite !zip_with_concat_grid.
Qed.

Lemma concat_grid_lookup {A B C : Type} (F : A → B → C) (ys : list A)
    (xs : list B) (i j : nat) (y : A) (x : B) :
  ys !! i = Some y → xs !! j = Some x →
  concat (grid F ys xs) !! (i * length xs + j)%nat = Some (F y x).
Proof.
  intros Hy Hx. revert i Hy.
  induction ys as [|y' ys IH]; intros i Hy; [done|].
  destruct i as [|i]; simpl in *.
  - injection Hy as ->.
    rewrite lookup_app_l by (rewrite length_map; by eapply lookup_lt_Some).
    by rewrite list_lookup_fmap, Hx.
  - rewrite lookup_app_r by (rewrite length_map; lia).
    rewrite length_map.
    replace (length xs + i * length xs + j - length xs)%nat
      with (i * length xs + j)%nat by lia.
    by apply IH.
Qed.

Lemma let_pair {A B C : Type} (p : A * B) (f : A → B → C) :
  (let '(a, b) := p in f a b) = f p.1 p.2.
Proof. by destruct p. Qed.

Lemma bind_Ok {A B : Type} (a : A) (f : A → outcome B) : Ok a ≫= f = f a.
Proof. reflexivity. Qed.

Lemma anchor_heights (scales ratios : list R) :
  zip_with ndiv (flatten (meshgrid (map Some scales) (map Some ratios)).1)
    (map nsqrt (flatten (meshgrid (map Some scales) (map Some ratios)).2))
  = map fst (anchor_sizes scales ratios).
Proof.
  unfold flatten, anchor_sizes.
  rewrite meshgrid_fst, meshgrid_snd, !grid_map, !map_concat_grid.
  by rewrite zip_with_concat_grid.
Qed.

Lemma anchor_widths (scales ratios : list R) :
  zip_with nmul (flatten (meshgrid (map Some scales) (map Some ratios)).1)
    (map nsqrt (flatten (meshgrid (map Some scales) (map Some ratios)).2))
  = map snd (anchor_sizes scales ratios).
Proof.
  unfold flatten, anchor_sizes.
  rewrite meshgrid_fst, meshgrid_snd, !grid_map, !map_concat_grid.
  by rewrite zip_with_concat_grid.
Qed.

Lemma anchor_shifts (fmap_shape : nat * nat) (rate : R) (stride : nat) :
  let shifts n :=
    map (λ n : nat, (Some (INR n) ⊘ Some rate)%num)
      (map (λ i, (i * stride)%nat) (seq 0 (ceil_div n stride))) in
  flatten (meshgrid (shifts fmap_shape.2) (shifts fmap_shape.1)).2
  = map fst (anchor_centers fmap_shape rate stride)
  ∧ flatten (meshgrid (shifts fmap_shape.2) (shifts fmap_shape.1)).1
    = map snd (anchor_centers fmap_shape rate stride).
Proof.
  cbv zeta. unfold flatten, anchor_centers.
  rewrite meshgrid_fst, meshgrid_snd, !map_map, !grid_map, !map_concat_grid.
  done.
Qed.

Lemma generate_anchors_grid (fmap_shape : nat * nat) (rate : R)
    (scales ratios : list R) (stride : nat) :
  stride ≠ 0%nat →
  generate_anchors fmap_shape rate scales ratios stride
  = Ok (concat (grid (λ p q, anchor_box p.1 p.2 q.1 q.2)
                  (anchor_centers fmap_shape rate stride)
                  (anchor_sizes scales ratios))).
Proof.
  intros Hs. unfold generate_anchors.
  rewrite let_pair, !arange_spec, !bind_Ok by done.
  rewrite let_pair, anchor_heights, anchor_widths.
  destruct (anchor_shifts fmap_shape rate stride) as [-> ->].
  rewrite !let_pair.
  by rewrite stack2_centers, stack2_sizes, boxes_of_centers_sizes.
Qed.

Lemma bind_concat_grid {A B C D : Type} (F : A → B → C) (k : C → list D)
    (ys : list A) (xs : list B) :
  concat (grid F ys xs) ≫= k = y ← ys; x ← xs; k (F y x).
Proof.
  rewrite concat_grid_bind.
  induction ys as [|y ys IH]; [done|].
  by rewrite !bind_cons, bind_app, IH, bind_bind_singleton.
Qed.

Lemma anchors_grid_spec (fmap_shape : nat * nat) (rate : R)
    (scales ratios : list R) (stride : nat) :
  concat (grid (λ p q, anchor_box p.1 p.2 q.1 q.2)
            (anchor_centers fmap_shape rate stride)
            (anchor_sizes scales ratios))
  = anchors_spec fmap_shape rate scales ratios stride.
Proof.
  rewrite concat_grid_bind. unfold anchor_centers, anchors_spec.
  rewrite bind_concat_grid.
  apply list_bind_ext; [intros iy | done].
  apply list_bind_ext; [intros ix | done].
  unfold anchor_sizes. by rewrite bind_concat_grid.
Qed.

Lemma ceil_div_ceiling (n s : nat) :
  (0 < s)%nat → (n ≤ ceil_div n s * s < n + s)%nat.
Proof.
  intros Hs. unfold ceil_div.
  pose proof (Nat.div_mod_eq (n + s - 1) s) as Hdiv.
  pose proof (Nat.mod_upper_bound (n + s - 1) s) as Hmod.
  nia.
Qed.

(** C3.  For a feature map of [H] rows and [W] columns, a stride [s >= 1]
    and lists of scales and ratios, [generate_anchors] returns exactly
    [ceil (H / s) * ceil (W / s) * k] boxes, where
    [k = len scales * len ratios]. *)
Theorem generate_anchors_count (H W : nat) (rate : R) (scales ratios : list R)
    (stride : nat) :
  stride ≠ 0%nat →
  ∃ boxes,
    generate_anchors (H, W) rate scales ratios stride = Ok boxes
    ∧ length boxes
      = (ceil_div H stride * ceil_div W stride
         * (length scales * length ratios))%nat.
Proof.
  intros Hs. eexists. split; [by apply generate_anchors_grid|].
  unfold anchor_centers, anchor_sizes.
  rewrite !concat_grid_length, !length_seq. simpl. lia.
Qed.

Lemma generate_anchors_count_witness :
  ∃ boxes,
    generate_anchors (4%nat, 4%nat) 1 [4] [1] 1 = Ok boxes
    ∧ length boxes = (ceil_div 4 1 * ceil_div 4 1 * (1 * 1))%nat.
Proof. apply (generate_anchors_count 4 4 1 [4] [1] 1). lia. Defined.

(** C4.  Every box that [generate_anchors] emits is
    [center ± 0.5 * (height, width)] in [(y1, x1, y2, x2)] order, for a
    center on the strided grid rescaled by [1 / fmap_downsampled_rate] and
    a [(scale, ratio)] pair with [height = scale / sqrt ratio] and
    [width = scale * sqrt ratio]; grid positions vary in the outer index
    and [(scale, ratio)] pairs in the inner index. *)
Theorem generate_anchors_layout (H W : nat) (rate : R)
    (scales ratios : list R) (stride : nat) :
  stride ≠ 0%nat →
  generate_anchors (H, W) rate scales ratios stride
  = Ok (anchors_spec (H, W) rate scales ratios stride)
  ∧ ∀ (iy ix ir isc : nat) (ratio scale : R),
      (iy < ceil_div H stride)%nat → (ix < ceil_div W stride)%nat →
      ratios !! ir = Some ratio → scales !! isc = Some scale →
      anchors_spec (H, W) rate scales ratios stride
        !! ((iy * ceil_div W stride + ix) * (length ratios * length scales)
            + (ir * length scales + isc))%nat
      = Some (anchor_box
                (Some (INR (iy * stride)) ⊘ Some rate)%num
                (Some (INR (ix * stride)) ⊘ Some rate)%num
                (Some scale ⊘ nsqrt (Some ratio))%num
                (Some scale ⊗ nsqrt (Some ratio))%num).
Proof.
  intros Hs. split.
  - by rewrite generate_anchors_grid, anchors_grid_spec.
  - intros iy ix ir isc ratio scale Hiy Hix Hr Hsc.
    rewrite <- anchors_grid_spec.
    pose proof (concat_grid_lookup
      (λ iy ix, (grid_center stride rate iy, grid_center stride rate ix))
      (seq 0 (ceil_div H stride)) (seq 0 (ceil_div W stride))
      iy ix iy ix) as Hc.
    rewrite length_seq in Hc.
    specialize (Hc (lookup_seq_lt _ _ _ Hiy) (lookup_seq_lt _ _ _ Hix)).
    pose proof (concat_grid_lookup
      (λ ratio scale, anchor_size scale ratio) ratios scales
      ir isc ratio scale Hr Hsc) as Hq.
    pose proof (concat_grid_lookup
      (λ p q : num * num, anchor_box p.1 p.2 q.1 q.2)
      (anchor_centers (H, W) rate stride) (anchor_sizes scales ratios)
      _ _ _ _ Hc Hq) as Hb.
    replace (length (anchor_sizes scales ratios))
      with (length ratios * length scales)%nat in Hb
      by (unfold anchor_sizes; by rewrite concat_grid_length).
    exact Hb.
Qed.

Lemma generate_anchors_layout_witness :
  generate_anchors (4%nat, 4%nat) 1 [4] [1] 1
  = Ok (anchors_spec (4%nat, 4%nat) 1 [4] [1] 1)
  ∧ anchors_spec (4%nat, 4%nat) 1 [4] [1] 1
      !! ((2 * ceil_div 4 1 + 2) * (length [1] * length [4])
          + (0 * length [4] + 0))%nat
    = Some (anchor_box
              (Some (INR (2 * 1)) ⊘ Some 1)%num
              (Some (INR (2 * 1)) ⊘ Some 1)%num
              (Some 4 ⊘ nsqrt (Some 1))%num
              (Some 4 ⊗ nsqrt (Some 1))%num).
Proof.
  destruct (generate_anchors_layout 4 4 1 [4] [1] 1) as [Heq Hidx]; [lia|].
  split; [exact Heq|].
  apply (Hidx 2%nat 2%nat 0%nat 0%nat 1 4);
    [vm_compute; lia | vm_compute; lia | reflexivity | reflexivity].
Defined.

(** ** [calc_overlap] *)

Lemma replicate_length_map {A B : Type} (x : B) (l : list A) :
  replicate (length l) x = map (λ _, x) l.
Proof. induction l as [|a l IH]; simpl; [done | by rewrite IH]. Qed.

Lemma col_repeat_grid (c : box → num) (qs rs : list box) :
  col_repeat (map c qs) (length rs) = grid (λ q _, c q) qs rs.
Proof.
  unfold col_repeat, grid. rewrite map_map. apply map_ext. intros q.
  apply replicate_length_map.
Qed.

Lemma row_repeat_grid (c : box → num) (qs rs : list box) :
  row_repeat (map c rs) (length qs) = grid (λ _ r, c r) qs rs.
Proof. unfold row_repeat, grid. apply replicate_length_map. Qed.

Lemma calc_overlap_grid (qs rs : list box) :
  calc_overlap qs rs = grid iou qs rs.
Proof.
  unfold calc_overlap, mat_zip, mat_map.
  rewrite !col_repeat_grid, !row_repeat_grid.
  by rewrite !zip_with_grid, !map_grid, !zip_with_grid.
Qed.

Lemma calc_overlap_entry (qs rs : list box) (i j : nat) (q r : box) :
  qs !! i = Some q → rs !! j = Some r →
  entry (calc_overlap qs rs) i j = Some (iou q r).
Proof. rewrite calc_overlap_grid. apply grid_lookup. Qed.

Lemma iou_fbox (q r : rbox) :
  iou (fbox q) (fbox r) = (Some (inter_R q r) ⊘ Some (union_R q r))%num.
Proof. destruct q as [[[? ?] ?] ?], r as [[[? ?] ?] ?]. reflexivity. Qed.

Lemma overlap_side (q1 q2 r1 r2 : R) :
  0 <= Rmax 0 (Rmin q2 r2 - Rmax q1 r1 + 1)
  ∧ (Rmax 0 (Rmin q2 r2 - Rmax q1 r1 + 1) = 0
     ∨ (0 < Rmax 0 (Rmin q2 r2 - Rmax q1 r1 + 1)
        ∧ Rmax 0 (Rmin q2 r2 - Rmax q1 r1 + 1) <= q2 - q1 + 1
        ∧ Rmax 0 (Rmin q2 r2 - Rmax q1 r1 + 1) <= r2 - r1 + 1)).
Proof.
  unfold Rmax, Rmin.
  destruct (Rle_dec q2 r2), (Rle_dec q1 r1);
    match goal with |- context [Rle_dec 0 ?x] => destruct (Rle_dec 0 x) end;
    lra.
Qed.

Lemma inter_R_bounds (q r : rbox) :
  0 <= inter_R q r
  ∧ (inter_R q r = 0
     ∨ (0 < inter_R q r ∧ inter_R q r <= area_R q ∧ inter_R q r <= area_R r)).
Proof.
  destruct q as [[[qx1 qy1] qx2] qy2], r as [[[rx1 ry1] rx2] ry2].
  unfold inter_R, area_R.
  pose proof (overlap_side qx1 qx2 rx1 rx2) as [Ha Ha'].
  pose proof (overlap_side qy1 qy2 ry1 ry2) as [Hb Hb'].
  set (a := Rmax 0 (Rmin qx2 rx2 - Rmax qx1 rx1 + 1)) in *.
  set (b := Rmax 0 (Rmin qy2 ry2 - Rmax qy1 ry1 + 1)) in *.
  split; [nra|].
  destruct Ha' as [Ha0 | (Ha0 & Haq & Har)]; [left; nra|].
  destruct Hb' as [Hb0 | (Hb0 & Hbq & Hbr)]; [left; nra|].
  right. repeat split; nra.
Qed.


Lemma iou_range (q r : rbox) :
  union_R q r ≠ 0 → 0 <= inter_R q r / union_R q r <= 1.
Proof.
  intros Hu. unfold union_R in *.
  destruct (inter_R_bounds q r) as [Hge [H0 | (Hpos & Hq & Hr)]].
  - rewrite H0. unfold Rdiv. rewrite Rmult_0_l. lra.
  - assert (0 < area_R q + area_R r - inter_R q r) as Hpos' by lra.
    split.
    + apply Rlt_le, Rdiv_lt_0_compat; lra.
    + apply (Rmult_le_reg_r (area_R q + area_R r - inter_R q r)); [lra|].
      unfold Rdiv. rewrite Rmult_assoc, Rinv_l by lra. lra.
Qed.

Lemma well_formed_area (b : rbox) : well_formed b → 1 <= area_R b.
Proof.
  destruct b as [[[x1 y1] x2] y2]. unfold well_formed, area_R.
  intros [Hx Hy]. nra.
Qed.

Lemma well_formed_union (q r : rbox) :
  well_formed q → well_formed r → 1 <= union_R q r.
Proof.
  intros Hq Hr. unfold union_R.
  pose proof (well_formed_area q Hq) as Haq.
  pose proof (well_formed_area r Hr) as Har.
  destruct (inter_R_bounds q r) as [_ [Hi | (Hpos & Hq' & Hr')]]; lra.
Qed.

Lemma inter_R_self (b : rbox) : well_formed b → inter_R b b = area_R b.
Proof.
  destruct b as [[[x1 y1] x2] y2]. unfold well_formed, inter_R, area_R.
  intros [Hx Hy].
  rewrite (Rmin_left x2 x2), (Rmin_left y2 y2) by lra.
  rewrite (Rmax_left x1 x1), (Rmax_left y1 y1) by lra.
  by rewrite !Rmax_right by lra.
Qed.

Lemma inter_R_separated (q r : rbox) :
  well_formed q → well_formed r → separated_R q r → inter_R q r = 0.
Proof.
  destruct q as [[[qx1 qy1] qx2] qy2], r as [[[rx1 ry1] rx2] ry2].
  unfold well_formed, separated_R, inter_R. intros [Hqx Hqy] [Hrx Hry] Hsep.
  assert (Rmax 0 (Rmin qx2 rx2 - Rmax qx1 rx1 + 1) = 0
          ∨ Rmax 0 (Rmin qy2 ry2 - Rmax qy1 ry1 + 1) = 0) as [-> | ->];
    [|lra..].
  destruct Hsep as [H | [H | [H | H]]]; [left | left | right | right];
    apply Rmax_left; unfold Rmin, Rmax;
    repeat match goal with |- context [Rle_dec ?x ?y] =>
             destruct (Rle_dec x y) end; lra.
Qed.

Lemma iou_value (q r : rbox) (i u : R) :
  inter_R q r = i → union_R q r = u → u ≠ 0 →
  iou (fbox q) (fbox r) = Some (i / u).
Proof. intros <- <- Hu. rewrite iou_fbox. by apply ndiv_Some. Qed.

Lemma calc_overlap_shape (qs rs : list box) :
  length (calc_overlap qs rs) = length qs
  ∧ Forall (λ row, length row = length rs) (calc_overlap qs rs).
Proof.
  rewrite calc_overlap_grid. split; [apply grid_length|].
  unfold grid. apply Forall_map, Forall_true. intros q. simpl.
  by rewrite length_map.
Qed.











(** ** Index tensors and masks *)

Lemma elem_of_masked_select_seq (mask : list bool) (s n i : nat) :
  i ∈ masked_select (seq s n) mask
  ↔ (s ≤ i < s + n)%nat ∧ mask !! (i - s)%nat = Some true.
Proof.
  revert s mask. induction n as [|n IH]; intros s mask; simpl.
  - rewrite elem_of_nil. lia.
  - destruct mask as [|b mask].
    + rewrite elem_of_nil, lookup_nil. split; [done | by intros [_ ?]].
    + assert (i ∈ masked_select (seq (S s) n) mask
              ↔ (s < i < s + S n)%nat
                ∧ (b :: mask) !! (i - s)%nat = Some true) as Htail.
      { rewrite IH. split.
        - intros [Hi Hm]. split; [lia|].
          replace (i - s)%nat with (S (i - S s)) by lia. done.
        - intros [Hi Hm]. split; [lia|].
          replace (i - s)%nat with (S (i - S s)) in Hm by lia. done. }
      destruct b.
      * rewrite elem_of_cons, Htail. split.
        -- intros [-> | [Hi Hm]]; [|split; [lia | done]].
           split; [lia|]. by rewrite Nat.sub_diag.
        -- intros [Hi Hm]. destruct (decide (i = s)) as [->|Hne];
             [by left | right; split; [lia | done]].
      * rewrite Htail. split.
        -- intros [Hi Hm]. split; [lia | done].
        -- intros [Hi Hm]. destruct (decide (i = s)) as [->|Hne];
             [by rewrite Nat.sub_diag in Hm | split; [lia | done]].
Qed.

Lemma elem_of_select_label (labels : list Z) (v : Z) (n i : nat) :
  i ∈ masked_select (seq 0 n) (map (Z.eqb v) labels)
  ↔ (i < n)%nat ∧ labels !! i = Some v.
Proof.
  rewrite elem_of_masked_select_seq, Nat.sub_0_r, list_lookup_fmap.
  split.
  - intros [Hi Hm]. split; [lia|].
    destruct (labels !! i) as [x|]; [|done]. simpl in Hm.
    injection Hm as Hm. apply Z.eqb_eq in Hm. by subst.
  - intros [Hi ->]. split; [lia|]. simpl. by rewrite Z.eqb_refl.
Qed.

Lemma index_fill_length (t : list Z) (idx : list nat) (v : Z) :
  length (index_fill t idx v) = length t.
Proof.
  unfold index_fill. revert t.
  induction idx as [|i idx IH]; intros t; simpl; [done|].
  by rewrite IH, length_insert.
Qed.

Lemma index_fill_keep (t : list Z) (idx : list nat) (v : Z) (a : nat) :
  t !! a = Some v → index_fill t idx v !! a = Some v.
Proof.
  unfold index_fill. revert t.
  induction idx as [|i idx IH]; intros t Ht; simpl; [done|].
  apply IH. destruct (decide (i = a)) as [->|Hne].
  - apply list_lookup_insert_eq. by eapply lookup_lt_Some.
  - by rewrite list_lookup_insert_ne.
Qed.

Lemma index_fill_elem (t : list Z) (idx : list nat) (v : Z) (a : nat) :
  a ∈ idx → (a < length t)%nat → index_fill t idx v !! a = Some v.
Proof.
  unfold index_fill. revert t.
  induction idx as [|i idx IH]; intros t Ha Hlen; [by apply elem_of_nil in Ha|].
  simpl. destruct (decide (a = i)) as [->|Hne].
  - apply (index_fill_keep _ idx). by apply list_lookup_insert_eq.
  - apply elem_of_cons in Ha as [?|Ha]; [done|].
    apply IH; [done | by rewrite length_insert].
Qed.

Lemma mask_fill_lookup (t : list Z) (mask : list bool) (v : Z) (i : nat)
    (x : Z) (b : bool) :
  t !! i = Some x → mask !! i = Some b →
  mask_fill t mask v !! i = Some (if b then v else x).
Proof.
  intros Ht Hm. unfold mask_fill. by rewrite lookup_zip_with, Ht, Hm.
Qed.

Lemma mask_fill_lookup_inv (t : list Z) (mask : list bool) (v : Z) (i : nat)
    (y : Z) :
  mask_fill t mask v !! i = Some y →
  ∃ (x : Z) (b : bool),
    t !! i = Some x ∧ mask !! i = Some b ∧ y = if b then v else x.
Proof.
  unfold mask_fill. rewrite lookup_zip_with.
  destruct (t !! i) as [x|]; [|done]. simpl.
  destruct (mask !! i) as [b|]; [|done]. simpl.
  intros [= <-]. by exists x, b.
Qed.

(** ** Reductions *)

Lemma reals_Ok (l : list num) (xs : list R) :
  reals l = Ok xs → l = map Some xs.
Proof.
  revert xs. induction l as [|[x|] l IH]; intros xs; simpl.
  - by intros [= <-].
  - destruct (reals l) as [ys| |]; simpl; [|done..].
    intros [= <-]. simpl. by rewrite (IH ys).
  - done.
Qed.

Lemma reals_map_Some (xs : list R) : reals (map Some xs) = Ok xs.
Proof. induction xs as [|x xs IH]; simpl; [done | by rewrite IH]. Qed.

Lemma max_from_spec (l : list R) (best : R) (best_i i : nat) (v : R)
    (k : nat) :
  max_from best best_i i l = (v, k) →
  best <= v
  ∧ (∀ x, x ∈ l → x <= v)
  ∧ ((v = best ∧ k = best_i)
     ∨ ((i ≤ k < i + length l)%nat ∧ l !! (k - i)%nat = Some v)).
Proof.
  revert best best_i i.
  induction l as [|x l IH]; intros best best_i i; simpl.
  - intros [= <- <-]. split; [lra|]. split; [|by left].
    intros x Hx. by apply elem_of_nil in Hx.
  - destruct (decide (best < x)) as [Hlt|Hge]; intros Hmax;
      destruct (IH _ _ _ Hmax) as (Hb & Hall & Hk).
    + split; [lra|]. split.
      * intros y [->|Hy]%elem_of_cons; [done | by apply Hall].
      * right. destruct Hk as [[-> ->] | [Hk Hv]].
        -- split; [lia|]. by rewrite Nat.sub_diag.
        -- split; [lia|].
           replace (k - i)%nat with (S (k - S i)) by lia. done.
    + split; [done|]. split.
      * intros y [->|Hy]%elem_of_cons; [lra | by apply Hall].
      * destruct Hk as [[-> ->] | [Hk Hv]]; [by left | right].
        split; [lia|].
        replace (k - i)%nat with (S (k - S i)) by lia. done.
Qed.

(** [reduce_max] returns an element of the slice that no element exceeds,
    together with its index. *)
Lemma reduce_max_spec (l : list num) (v : R) (k : nat) :
  reduce_max l = Ok (v, k) →
  l !! k = Some (Some v)
  ∧ ∀ i e, l !! i = Some e → ∃ x : R, e = Some x ∧ x <= v.
Proof.
  unfold reduce_max. destruct (reals l) as [xs| |] eqn:Hxs; simpl; [|done..].
  apply reals_Ok in Hxs as ->.
  destruct xs as [|x xs]; [done|]. intros [= Hmax].
  destruct (max_from_spec _ _ _ _ _ _ Hmax) as (Hb & Hall & Hk).
  split.
  - destruct Hk as [[-> ->] | [Hk Hv]]; [done|].
    destruct k as [|k]; [lia|]. simpl in *.
    rewrite Nat.sub_0_r in Hv. by rewrite list_lookup_fmap, Hv.
  - intros i e. rewrite list_lookup_fmap.
    destruct ((x :: xs) !! i) as [y|] eqn:Hy; [|done]. intros [= <-].
    exists y. split; [done|].
    apply list_elem_of_lookup_2 in Hy.
    apply elem_of_cons in Hy as [->|Hy]; [done | by apply Hall].
Qed.

Lemma map_outcome_Ok {A B : Type} (f : A → outcome B) (l : list A)
    (bs : list B) :
  map_outcome f l = Ok bs → Forall2 (λ a b, f a = Ok b) l bs.
Proof.
  revert bs. induction l as [|a l IH]; intros bs; simpl.
  - intros [= <-]. constructor.
  - destruct (f a) as [b| |] eqn:Hb; simpl; [|done..].
    destruct (map_outcome f l) as [bs'| |]; simpl; [|done..].
    intros [= <-]. constructor; [done | by apply IH].
Qed.

Lemma map_outcome_Forall2 {A B : Type} (f : A → outcome B) (l : list A)
    (bs : list B) :
  Forall2 (λ a b, f a = Ok b) l bs → map_outcome f l = Ok bs.
Proof.
  induction 1 as [|a b l bs Hab _ IH]; simpl; [done|].
  by rewrite Hab, IH.
Qed.

Lemma column_lookup (j : nat) (m : list (list num)) (a : nat)
    (row : list num) :
  m !! a = Some row → column j m !! a = Some (default None (row !! j)).
Proof. intros Hrow. unfold column. by rewrite list_lookup_fmap, Hrow. Qed.

Lemma column_length (j : nat) (m : list (list num)) :
  length (column j m) = length m.
Proof. unfold column. by rewrite length_map. Qed.

(** ** [calc_anchor_match] *)

Lemma calc_anchor_match_Ok (anchors gt_boxes : list box) (rate hi lo : R)
    (pos_idx neg_idx : list nat) (assigned : list box) :
  calc_anchor_match anchors gt_boxes rate hi lo
  = Ok (pos_idx, neg_idx, assigned) →
  ∃ (rs : list (R * nat)) (closest : list nat),
    Forall2 (λ row r, reduce_max row = Ok r)
      (match_overlaps anchors gt_boxes rate) rs
    ∧ Forall2
        (λ j a, ∃ c, closest_anchor anchors gt_boxes rate j = Ok (c, a))
        (seq 0 (length gt_boxes)) closest
    ∧ gt_boxes ≠ [] ∧ anchors ≠ []
    ∧ pos_idx
      = masked_select (seq 0 (length anchors))
          (map (Z.eqb 1)
             (anchor_labels (length anchors) closest (map fst rs) hi lo))
    ∧ neg_idx
      = masked_select (seq 0 (length anchors))
          (map (Z.eqb 0)
             (anchor_labels (length anchors) closest (map fst rs) hi lo)).
Proof.
  unfold calc_anchor_match, max_dim1, argmax_dim0.
  rewrite length_map.
  fold (match_overlaps anchors gt_boxes rate).
  destruct (Nat.eqb_spec (length gt_boxes) 0) as [|Hgt]; [done|].
  destruct (map_outcome reduce_max (match_overlaps anchors gt_boxes rate))
    as [rs| |] eqn:Hrs; simpl; [|done..].
  destruct (gather _ _) as [asg| |]; simpl; [|done..].
  destruct (Nat.eqb_spec (length anchors) 0) as [|Han]; [done|].
  destruct (map_outcome _ (seq 0 (length gt_boxes)))
    as [closest| |] eqn:Hcl; simpl; [|done..].
  intros [= <- <- <-]. exists rs, closest.
  split; [by apply map_outcome_Ok|]. split.
  { apply map_outcome_Ok in Hcl.
    eapply Forall2_impl; [exact Hcl|]. simpl. intros j a Hja.
    unfold closest_anchor.
    destruct (reduce_max _) as [[c a']| |]; simpl in Hja; [|done..].
    injection Hja as ->. by exists c. }
  split; [by intros ->|]. split; [by intros ->|]. done.
Qed.

Lemma index_fill_other (t : list Z) (idx : list nat) (v : Z) (a : nat) :
  a ∉ idx → index_fill t idx v !! a = t !! a.
Proof.
  unfold index_fill. revert t.
  induction idx as [|i idx IH]; intros t Ha; simpl; [done|].
  apply not_elem_of_cons in Ha as [Hne Ha].
  rewrite IH by done. by rewrite list_lookup_insert_ne.
Qed.

(** The label of anchor [i], from its best overlap [v]: the comparison
    with the low threshold is applied last and decides first. *)
Lemma anchor_labels_lookup (n : nat) (closest : list nat) (maxs : list R)
    (hi lo : R) (i : nat) (v : R) :
  (i < n)%nat → maxs !! i = Some v →
  anchor_labels n closest maxs hi lo !! i
  = Some (if bool_decide (v < lo) then 0%Z
          else if bool_decide (hi < v) then 1%Z
          else if bool_decide (i ∈ closest) then 1%Z
          else (-1)%Z).
Proof.
  intros Hi Hv. unfold anchor_labels.
  assert (index_fill (replicate n (-1)%Z) closest 1%Z !! i
          = Some (if bool_decide (i ∈ closest) then 1%Z else (-1)%Z)) as H0.
  { case_bool_decide as Hel.
    - apply index_fill_elem; [done | by rewrite length_replicate].
    - rewrite index_fill_other by done. by apply lookup_replicate_2. }
  erewrite mask_fill_lookup; [reflexivity| |by rewrite list_lookup_fmap, Hv].
  erewrite mask_fill_lookup;
    [reflexivity | exact H0 | by rewrite list_lookup_fmap, Hv].
Qed.

Lemma overlaps_row_max (anchors gt_boxes : list box) (rate : R)
    (rs : list (R * nat)) (i : nat) (row : list num) (v : R) (k : nat) :
  Forall2 (λ row r, reduce_max row = Ok r)
    (match_overlaps anchors gt_boxes rate) rs →
  match_overlaps anchors gt_boxes rate !! i = Some row →
  reduce_max row = Ok (v, k) →
  (i < length anchors)%nat ∧ map fst rs !! i = Some v.
Proof.
  intros Hrs Hrow Hmax. split.
  - apply lookup_lt_Some in Hrow. unfold match_overlaps in Hrow.
    by rewrite (proj1 (calc_overlap_shape _ _)) in Hrow.
  - destruct (Forall2_lookup_l _ _ _ _ _ Hrs Hrow) as (r & Hr & Hmax').
    rewrite Hmax in Hmax'. injection Hmax' as <-.
    by rewrite list_lookup_fmap, Hr.
Qed.

(** C8.  Whenever [calc_anchor_match] returns, no anchor index is in both
    the positive and the negative index set. *)
Theorem calc_anchor_match_disjoint (anchors gt_boxes : list box)
    (rate hi lo : R) (pos_idx neg_idx : list nat) (assigned : list box)
    (i : nat) :
  calc_anchor_match anchors gt_boxes rate hi lo
  = Ok (pos_idx, neg_idx, assigned) →
  ¬ (i ∈ pos_idx ∧ i ∈ neg_idx).
Proof.
  intros Hm [Hpos Hneg].
  destruct (calc_anchor_match_Ok _ _ _ _ _ _ _ _ Hm)
    as (rs & closest & _ & _ & _ & _ & -> & ->).
  apply elem_of_select_label in Hpos as [_ Hpos].
  apply elem_of_select_label in Hneg as [_ Hneg].
  rewrite Hpos in Hneg. done.
Qed.


(** The result of [calc_anchor_match] from the row maxima and the column
    argmaxima of the overlap matrix. *)
Lemma calc_anchor_match_eval (anchors gt_boxes : list box) (rate hi lo : R)
    (rs : list (R * nat)) (closest : list nat) (assigned : list box) :
  gt_boxes ≠ [] → anchors ≠ [] →
  Forall2 (λ row r, reduce_max row = Ok r)
    (match_overlaps anchors gt_boxes rate) rs →
  gather (map (scale_box rate) gt_boxes) (map snd rs) = Ok assigned →
  Forall2 (λ j a, ∃ c, closest_anchor anchors gt_boxes rate j = Ok (c, a))
    (seq 0 (length gt_boxes)) closest →
  calc_anchor_match anchors gt_boxes rate hi lo
  = Ok (masked_select (seq 0 (length anchors))
          (map (Z.eqb 1)
             (anchor_labels (length anchors) closest (map fst rs) hi lo)),
        masked_select (seq 0 (length anchors))
          (map (Z.eqb 0)
             (anchor_labels (length anchors) closest (map fst rs) hi lo)),
        assigned).
Proof.
  intros Hgt Han Hrs Hasg Hcl.
  unfold calc_anchor_match, max_dim1, argmax_dim0.
  rewrite length_map.
  fold (match_overlaps anchors gt_boxes rate).
  destruct (Nat.eqb_spec (length gt_boxes) 0) as [H0|_];
    [by destruct gt_boxes|].
  rewrite (map_outcome_Forall2 _ _ _ Hrs). simpl. rewrite Hasg. simpl.
  destruct (Nat.eqb_spec (length anchors) 0) as [H0|_];
    [by destruct anchors|].
  rewrite (map_outcome_Forall2 _ _ closest); [done|].
  eapply Forall2_impl; [exact Hcl|]. simpl. intros j a [c Hc].
  unfold closest_anchor in Hc. by rewrite Hc.
Qed.

Lemma scale_box_fbox (s : R) (c0 c1 c2 c3 : R) :
  scale_box s (fbox (c0, c1, c2, c3)) = fbox (c0 * s, c1 * s, c2 * s, c3 * s).
Proof. reflexivity. Qed.

(** *** One anchor and a small ground-truth box inside it *)






Lemma iou_value_eq (q r : rbox) (i u v : R) :
  inter_R q r = i → union_R q r = u → u ≠ 0 → v = i / u →
  iou (fbox q) (fbox r) = Some v.
Proof. intros Hi Hu Hu0 ->. by apply iou_value. Qed.

(** *** Two anchors, one of them equal to the ground-truth box *)

Lemma two_anchor_overlaps :
  match_overlaps [fbox (0, 0, 4, 4); fbox (10, 10, 14, 14)]
    [fbox (0, 0, 4, 4)] 1
  = [[Some 1]; [Some 0]].
Proof.
  unfold match_overlaps.
  change (map (scale_box 1) [fbox (0, 0, 4, 4)])
    with [fbox (0 * 1, 0 * 1, 4 * 1, 4 * 1)].
  rewrite calc_overlap_grid. unfold grid, map.
  replace (iou (fbox (0, 0, 4, 4)) (fbox (0 * 1, 0 * 1, 4 * 1, 4 * 1)))
    with (Some 1) by (symmetry; apply (iou_value_eq _ _ 25 25); iou_side).
  replace (iou (fbox (10, 10, 14, 14)) (fbox (0 * 1, 0 * 1, 4 * 1, 4 * 1)))
    with (Some 0) by (symmetry; apply (iou_value_eq _ _ 0 50); iou_side).
  done.
Qed.

Lemma two_anchor_closest :
  closest_anchor [fbox (0, 0, 4, 4); fbox (10, 10, 14, 14)]
    [fbox (0, 0, 4, 4)] 1 0
  = Ok (1, 0%nat).
Proof.
  unfold closest_anchor. rewrite two_anchor_overlaps.
  unfold column, reduce_max. simpl.
  case_decide; [lra | done].
Qed.

Lemma two_anchor_match :
  calc_anchor_match [fbox (0, 0, 4, 4); fbox (10, 10, 14, 14)]
    [fbox (0, 0, 4, 4)] 1 default_thresh_hi default_thresh_lo
  = Ok ([0%nat], [1%nat],
        [fbox (0 * 1, 0 * 1, 4 * 1, 4 * 1);
         fbox (0 * 1, 0 * 1, 4 * 1, 4 * 1)]).
Proof.
  rewrite (calc_anchor_match_eval _ _ _ _ _
             [(1, 0%nat); (0, 0%nat)] [0%nat]
             [fbox (0 * 1, 0 * 1, 4 * 1, 4 * 1);
              fbox (0 * 1, 0 * 1, 4 * 1, 4 * 1)]); [|done|done| | |].
  - unfold anchor_labels, default_thresh_hi, default_thresh_lo. simpl map.
    rewrite (bool_decide_eq_true_2 (7 / 10 < 1)) by lra.
    rewrite (bool_decide_eq_false_2 (7 / 10 < 0)) by lra.
    rewrite (bool_decide_eq_false_2 (1 < 3 / 10)) by lra.
    rewrite (bool_decide_eq_true_2 (0 < 3 / 10)) by lra.
    reflexivity.
  - rewrite two_anchor_overlaps. by repeat constructor.
  - reflexivity.
  - repeat constructor. exists 1. apply two_anchor_closest.
Qed.


Lemma calc_anchor_match_disjoint_witness :
  ¬ (0%nat ∈ [0%nat] ∧ 0%nat ∈ [1%nat]).
Proof.
  exact (calc_anchor_match_disjoint _ _ _ _ _ _ _ _ 0%nat two_anchor_match).
Defined.


(** ** The 4x4 scenario *)

Lemma anchor_size_4_1 : anchor_size 4 1 = (Some 4, Some 4).
Proof.
  unfold anchor_size. rewrite nsqrt_Some, sqrt_1, ndiv_Some by lra.
  simpl. f_equal; f_equal; lra.
Qed.

Lemma grid_center_unit (i : nat) : grid_center 1 1 i = Some (INR i).
Proof.
  unfold grid_center. rewrite ndiv_Some, Nat.mul_1_r by lra.
  f_equal. lra.
Qed.

Lemma scenario_generate :
  generate_anchors (4%nat, 4%nat) 1 [4] [1] 1 = Ok (map fbox scenario_anchors).
Proof.
  rewrite generate_anchors_grid, anchors_grid_spec by done.
  unfold anchors_spec. cbn [fst snd].
  change (ceil_div 4 1) with 4%nat.
  cbn [seq mbind list_bind app].
  rewrite anchor_size_4_1, !grid_center_unit.
  cbv [anchor_box nsub nadd nmul lift2 half fst snd].
  unfold scenario_anchors. cbn [map fbox INR].
  repeat f_equal; lra.
Qed.

Lemma scenario_overlaps :
  match_overlaps (map fbox scenario_anchors) [fbox (0, 0, 4, 4)] 1
  = map (λ v, [Some v]) scenario_ious.
Proof.
  unfold match_overlaps.
  change (map (scale_box 1) [fbox (0, 0, 4, 4)])
    with [fbox (0 * 1, 0 * 1, 4 * 1, 4 * 1)].
  rewrite calc_overlap_grid.
  unfold grid, scenario_anchors, scenario_ious. cbn [map].
  repeat (apply (f_equal2 cons); [apply (f_equal2 cons); [|done] |]);
    [..|done].
  - apply (iou_value_eq _ _ 9 41); iou_side.
  - apply (iou_value_eq _ _ 12 38); iou_side.
  - apply (iou_value_eq _ _ 15 35); iou_side.
  - apply (iou_value_eq _ _ 12 38); iou_side.
  - apply (iou_value_eq _ _ 12 38); iou_side.
  - apply (iou_value_eq _ _ 16 34); iou_side.
  - apply (iou_value_eq _ _ 20 30); iou_side.
  - apply (iou_value_eq _ _ 16 34); iou_side.
  - apply (iou_value_eq _ _ 15 35); iou_side.
  - apply (iou_value_eq _ _ 20 30); iou_side.
  - apply (iou_value_eq _ _ 25 25); iou_side.
  - apply (iou_value_eq _ _ 20 30); iou_side.
  - apply (iou_value_eq _ _ 12 38); iou_side.
  - apply (iou_value_eq _ _ 16 34); iou_side.
  - apply (iou_value_eq _ _ 20 30); iou_side.
  - apply (iou_value_eq _ _ 16 34); iou_side.
Qed.

Lemma column_singletons (l : list R) :
  column 0 (map (λ v, [Some v]) l) = map Some l.
Proof. unfold column. rewrite map_map. by apply map_ext. Qed.

Lemma scenario_closest :
  closest_anchor (map fbox scenario_anchors) [fbox (0, 0, 4, 4)] 1 0
  = Ok (1, 10%nat).
Proof.
  unfold closest_anchor. rewrite scenario_overlaps, column_singletons.
  unfold reduce_max. rewrite reals_map_Some.
  unfold scenario_ious. cbn [mbind outcome_bind max_from].
  repeat (case_decide; [try lra | try lra]).
  done.
Qed.

Lemma scenario_match :
  calc_anchor_match (map fbox scenario_anchors) [fbox (0, 0, 4, 4)] 1
    default_thresh_hi default_thresh_lo
  = Ok ([10%nat], [0%nat], replicate 16 (fbox (0, 0, 4, 4))).
Proof.
  rewrite (calc_anchor_match_eval _ _ _ _ _
             (map (λ v, (v, 0%nat)) scenario_ious) [10%nat]
             (replicate 16 (fbox (0 * 1, 0 * 1, 4 * 1, 4 * 1))));
    [|done|done| | |].
  - replace (fbox (0 * 1, 0 * 1, 4 * 1, 4 * 1)) with (fbox (0, 0, 4, 4))
      by (unfold fbox; repeat f_equal; lra).
    unfold anchor_labels, scenario_ious, default_thresh_hi, default_thresh_lo.
    cbn [map fst]. thresholds. reflexivity.
  - rewrite scenario_overlaps.
    apply Forall2_fmap, Forall_Forall2_diag, Forall_true. by intros v.
  - reflexivity.
  - repeat constructor. exists 1. apply scenario_closest.
Qed.

Lemma rbox_eq (a b c d a' b' c' d' : R) :
  a = a' → b = b' → c = c' → d = d' →
  Some (a, b, c, d) = Some (a', b', c', d').
Proof. by intros -> -> -> ->. Qed.

(** C9.  With a [4x4] feature map, downsample rate 1, scales [[4]],
    ratios [[1]] and stride 1, [generate_anchors] produces 16 anchors, the
    one of grid cell [(iy, ix)] being the [4x4] box centered on
    [(iy, ix)]; matched with the default thresholds against the single
    ground-truth box that equals the anchor of cell [(2, 2)] (index 10),
    the positive index set is exactly that index, and the anchors whose
    overlap is below 0.3 (here the one of index 0) form the negative
    index set. *)
Theorem scenario_4x4 :
  generate_anchors (4%nat, 4%nat) 1 [4] [1] 1 = Ok (map fbox scenario_anchors)
  ∧ length scenario_anchors = 16%nat
  ∧ (∀ iy ix : nat,
       (iy < 4)%nat → (ix < 4)%nat →
       scenario_anchors !! (4 * iy + ix)%nat
       = Some (INR iy - 2, INR ix - 2, INR iy + 2, INR ix + 2))
  ∧ scenario_anchors !! 10%nat = Some (0, 0, 4, 4)
  ∧ match_overlaps (map fbox scenario_anchors) [fbox (0, 0, 4, 4)] 1
    = map (λ v, [Some v]) scenario_ious
  ∧ calc_anchor_match (map fbox scenario_anchors) [fbox (0, 0, 4, 4)] 1
      default_thresh_hi default_thresh_lo
    = Ok ([10%nat], [0%nat], replicate 16 (fbox (0, 0, 4, 4)))
  ∧ (∀ (i : nat) (v : R),
       scenario_ious !! i = Some v →
       (v < default_thresh_lo ↔ i ∈ [0%nat])).
Proof.
  split; [apply scenario_generate|]. split; [done|].
  split.
  { intros iy ix Hiy Hix.
    destruct iy as [|[|[|[|iy]]]]; [| | | |lia];
      destruct ix as [|[|[|[|ix]]]]; try lia;
      cbn [scenario_anchors lookup list_lookup Nat.mul Nat.add INR];
      apply rbox_eq; lra. }
  split; [done|]. split; [apply scenario_overlaps|].
  split; [apply scenario_match|].
  intros i v Hv. rewrite list_elem_of_singleton. unfold default_thresh_lo.
  do 16 (destruct i as [|i];
         [injection Hv as <-; split; [try done; lra | try done; lra]|]).
  done.
Qed.

(** ** [calc_delta] *)

Lemma calc_delta_single (b r std : box) :
  calc_delta [b] [r] std = Ok [delta_spec b r std].
Proof. reflexivity. Qed.

Lemma delta_spec_components (b r std : box) :
  delta_spec b r std
  = (delta_dx b r ⊘ col0 std, delta_dy b r ⊘ col1 std,
     delta_dw b r ⊘ col2 std, delta_dh b r ⊘ col3 std)%num.
Proof. reflexivity. Qed.

(** For two boxes, row 0 holds the x- and y-offsets of both boxes and
    row 1 their log-scales. *)
Lemma calc_delta_pair (b0 b1 r0 r1 std : box) :
  calc_delta [b0; b1] [r0; r1] std
  = Ok [(delta_dx b0 r0 ⊘ col0 std, delta_dx b1 r1 ⊘ col1 std,
         delta_dy b0 r0 ⊘ col2 std, delta_dy b1 r1 ⊘ col3 std)%num;
        (delta_dw b0 r0 ⊘ col0 std, delta_dw b1 r1 ⊘ col1 std,
         delta_dh b0 r0 ⊘ col2 std, delta_dh b1 r1 ⊘ col3 std)%num].
Proof. reflexivity. Qed.

Lemma nlog_one : nlog (Some 1) = Some 0.
Proof. rewrite nlog_Some by lra. by rewrite ln_1. Qed.

Lemma calc_delta_shifted_pair :
  calc_delta [fbox (0, 0, 1, 1); fbox (0, 0, 1, 1)]
    [fbox (0, 0, 1, 1); fbox (2, 0, 3, 1)] (fbox (1, 1, 1, 1))
  = Ok [fbox (0, 2, 0, 0); fbox (0, 0, 0, 0)].
Proof.
  unfold calc_delta. cbn -[ndiv nlog nsub nadd nmul].
  repeat (rewrite decide_True by done; cbn -[ndiv nlog nsub nadd nmul]).
  cbn [nsub nadd nmul lift2 half].
  replace (1 - 0) with 1 by lra. replace (3 - 2) with 1 by lra.
  rewrite !ndiv_Some by lra.
  replace (1 / 1) with 1 by lra. rewrite nlog_one.
  unfold view. rewrite decide_True by done.
  cbn -[ndiv]. rewrite !ndiv_Some by lra.
  repeat f_equal; lra.
Qed.

Lemma delta_spec_shifted_pair :
  delta_spec (fbox (0, 0, 1, 1)) (fbox (0, 0, 1, 1)) (fbox (1, 1, 1, 1))
  = fbox (0, 0, 0, 0)
  ∧ delta_spec (fbox (0, 0, 1, 1)) (fbox (2, 0, 3, 1)) (fbox (1, 1, 1, 1))
    = fbox (2, 0, 0, 0).
Proof.
  unfold delta_spec. cbn [fbox col0 col1 col2 col3 fst snd].
  cbn [nsub nadd nmul lift2 half].
  replace (1 - 0) with 1 by lra. replace (3 - 2) with 1 by lra.
  rewrite !ndiv_Some by lra.
  replace (1 / 1) with 1 by lra. rewrite nlog_one.
  rewrite !ndiv_Some by lra.
  split; repeat f_equal; lra.
Qed.

(** C2.  Row [i] of [calc_delta boxes ref_boxes std] should be the
    regression target [delta_spec] of box [i] and reference box [i].  On
    the two unit boxes [(0, 0, 1, 1)], [(0, 0, 1, 1)] with references
    [(0, 0, 1, 1)], [(2, 0, 3, 1)] and unit std-dev, the targets are
    [(0, 0, 0, 0)] and [(2, 0, 0, 0)], but the code returns the rows
    [(0, 2, 0, 0)] and [(0, 0, 0, 0)]: [torch.cat] lays the four
    component vectors end to end and [view] cuts that sequence into rows
    of four, so that row 0 holds the x-offsets of both boxes followed by
    their y-offsets. *)
Theorem calc_delta_rows_interleaved :
  calc_delta [fbox (0, 0, 1, 1); fbox (0, 0, 1, 1)]
    [fbox (0, 0, 1, 1); fbox (2, 0, 3, 1)] (fbox (1, 1, 1, 1))
  = Ok [fbox (0, 2, 0, 0); fbox (0, 0, 0, 0)]
  ∧ delta_spec (fbox (0, 0, 1, 1)) (fbox (0, 0, 1, 1)) (fbox (1, 1, 1, 1))
    = fbox (0, 0, 0, 0)
  ∧ delta_spec (fbox (0, 0, 1, 1)) (fbox (2, 0, 3, 1)) (fbox (1, 1, 1, 1))
    = fbox (2, 0, 0, 0)
  ∧ fbox (0, 2, 0, 0) ≠ fbox (0, 0, 0, 0).
Proof.
  split; [apply calc_delta_shifted_pair|].
  destruct delta_spec_shifted_pair as [H0 H1].
  split; [done|]. split; [done|].
  unfold fbox. intros [= H]. lra.
Qed.

(** ** [calc_anchor_match] returns *)

Lemma Forall_is_Some_reals (l : list num) :
  Forall is_Some l → ∃ xs : list R, l = map Some xs.
Proof.
  induction 1 as [|e l [x ->] _ [xs ->]]; [by exists []|].
  by exists (x :: xs).
Qed.

Lemma reduce_max_total (l : list num) :
  l ≠ [] → Forall is_Some l →
  ∃ (v : R) (k : nat), reduce_max l = Ok (v, k) ∧ (k < length l)%nat.
Proof.
  intros Hne [xs ->]%Forall_is_Some_reals.
  destruct xs as [|x xs]; [done|].
  unfold reduce_max. rewrite reals_map_Some. simpl.
  destruct (max_from x 0 1 xs) as [v k] eqn:Hmax. exists v, k.
  split; [done|].
  destruct (max_from_spec _ _ _ _ _ _ Hmax) as (_ & _ & [[_ ->] | [Hk _]]).
  - lia.
  - rewrite length_map. lia.
Qed.

Lemma map_outcome_total {A B : Type} (f : A → outcome B) (P : B → Prop)
    (l : list A) :
  Forall (λ a, ∃ b, f a = Ok b ∧ P b) l →
  ∃ bs, map_outcome f l = Ok bs ∧ Forall P bs.
Proof.
  induction 1 as [|a l (b & Hb & HP) _ (bs & Hbs & HPs)]; simpl.
  - by exists [].
  - exists (b :: bs). rewrite Hb, Hbs. split; [done | by constructor].
Qed.

Lemma gather_total {A : Type} (t : list A) (idx : list nat) :
  Forall (λ i, (i < length t)%nat) idx → ∃ r, gather t idx = Ok r.
Proof.
  intros Hidx. unfold gather.
  destruct (map_outcome_total
              (λ i, match t !! i with Some a => Ok a | None => Raises end)
              (λ _, True) idx) as (r & Hr & _); [|by exists r].
  eapply Forall_impl; [exact Hidx|]. simpl. intros i Hi.
  destruct (lookup_lt_is_Some_2 _ _ Hi) as [a ->]. by exists a.
Qed.

(** [calc_anchor_match] returns index sets whenever there is an anchor,
    there is a ground-truth box and every overlap is a real number. *)
Lemma calc_anchor_match_total (anchors gt_boxes : list box) (rate hi lo : R) :
  anchors ≠ [] → gt_boxes ≠ [] →
  (∀ i j e, entry (match_overlaps anchors gt_boxes rate) i j = Some e →
            is_Some e) →
  ∃ pos_idx neg_idx assigned,
    calc_anchor_match anchors gt_boxes rate hi lo
    = Ok (pos_idx, neg_idx, assigned).
Proof.
  intros Han Hgt Hfin.
  pose proof (calc_overlap_shape anchors (map (scale_box rate) gt_boxes))
    as [Hrows Hcols].
  fold (match_overlaps anchors gt_boxes rate) in Hrows, Hcols.
  rewrite length_map in Hcols. rewrite Forall_lookup in Hcols.
  assert (length gt_boxes ≠ 0%nat) as Hgt0 by (by destruct gt_boxes).
  assert (length anchors ≠ 0%nat) as Han0 by (by destruct anchors).
  destruct (map_outcome_total reduce_max
              (λ r, (r.2 < length gt_boxes)%nat)
              (match_overlaps anchors gt_boxes rate)) as (rs & Hrs & Hidx).
  { apply Forall_lookup. intros i row Hrow.
    pose proof (Hcols _ _ Hrow) as Hlen.
    destruct (reduce_max_total row) as (v & k & Hmax & Hk).
    - intros ->. simpl in Hlen. lia.
    - apply Forall_lookup. intros j e Hj. apply (Hfin i j).
      unfold entry. by rewrite Hrow.
    - exists (v, k). split; [done|]. simpl.
      apply (Nat.lt_le_trans _ _ _ Hk), Nat.eq_le_incl. exact Hlen. }
  destruct (gather_total (map (scale_box rate) gt_boxes) (map snd rs))
    as (assigned & Hasg).
  { rewrite length_map. by apply Forall_fmap. }
  destruct (map_outcome_total
              (λ j, r ← reduce_max
                          (column j (match_overlaps anchors gt_boxes rate));
                    Ok r.2)
              (λ _, True) (seq 0 (length gt_boxes))) as (closest & Hcl & _).
  { apply Forall_forall. intros j [_ Hj]%elem_of_seq. simpl in Hj.
    destruct (reduce_max_total
                (column j (match_overlaps anchors gt_boxes rate)))
      as (v & k & Hmax & _).
    - intros Hnil. apply (f_equal length) in Hnil.
      rewrite column_length, Hrows in Hnil. simpl in Hnil. lia.
    - apply Forall_lookup. intros i e Hi. unfold column in Hi.
      rewrite list_lookup_fmap in Hi.
      destruct (match_overlaps anchors gt_boxes rate !! i) as [row|] eqn:Hrow;
        [|done].
      simpl in Hi. injection Hi as <-.
      assert (j < length row)%nat as Hjr.
      { apply (Nat.lt_le_trans _ _ _ Hj), Nat.eq_le_incl.
        symmetry. exact (Hcols _ _ Hrow). }
      destruct (lookup_lt_is_Some_2 _ _ Hjr) as [e He]. rewrite He. simpl.
      apply (Hfin i j). unfold entry. by rewrite Hrow.
    - exists k. rewrite Hmax. by split. }
  unfold calc_anchor_match, max_dim1, argmax_dim0.
  rewrite length_map.
  fold (match_overlaps anchors gt_boxes rate).
  destruct (Nat.eqb_spec (length gt_boxes) 0) as [|_]; [done|].
  rewrite Hrs. simpl. rewrite Hasg. simpl.
  destruct (Nat.eqb_spec (length anchors) 0) as [|_]; [done|].
  rewrite Hcl. simpl. by eexists _, _, _.
Qed.

Lemma grid_lookup_inv {A B C : Type} (F : A → B → C) (ys : list A)
    (xs : list B) (i j : nat) (e : C) :
  entry (grid F ys xs) i j = Some e →
  ∃ y x, ys !! i = Some y ∧ xs !! j = Some x ∧ e = F y x.
Proof.
  unfold entry, grid. rewrite list_lookup_fmap.
  destruct (ys !! i) as [y|]; [|done]. simpl. rewrite list_lookup_fmap.
  destruct (xs !! j) as [x|]; [|done]. simpl. intros [= <-].
  by exists y, x.
Qed.

Lemma scale_box_well_formed (s : R) (g : rbox) :
  0 <= s → well_formed g →
  ∃ g' : rbox, scale_box s (fbox g) = fbox g' ∧ well_formed g'.
Proof.
  destruct g as [[[x1 y1] x2] y2]. intros Hs [Hx Hy].
  exists (x1 * s, y1 * s, x2 * s, y2 * s). split; [done|].
  unfold well_formed. split; nra.
Qed.

(** In particular it returns for boxes with real coordinates and
    [coord2 >= coord1], and a non-negative downsample rate. *)
Lemma calc_anchor_match_returns (anchors gt_boxes : list rbox)
    (rate hi lo : R) :
  anchors ≠ [] → gt_boxes ≠ [] → 0 <= rate →
  Forall well_formed anchors → Forall well_formed gt_boxes →
  ∃ pos_idx neg_idx assigned,
    calc_anchor_match (map fbox anchors) (map fbox gt_boxes) rate hi lo
    = Ok (pos_idx, neg_idx, assigned).
Proof.
  intros Han Hgt Hrate Hwa Hwg.
  apply calc_anchor_match_total.
  - by destruct anchors.
  - by destruct gt_boxes.
  - intros i j e. unfold match_overlaps. rewrite calc_overlap_grid.
    intros (a' & g' & Ha & Hg & ->)%grid_lookup_inv.
    rewrite list_lookup_fmap in Ha.
    destruct (anchors !! i) as [a|] eqn:Hai; [|done].
    injection Ha as <-.
    rewrite !list_lookup_fmap in Hg.
    destruct (gt_boxes !! j) as [g|] eqn:Hgj; [|done].
    injection Hg as <-.
    rewrite Forall_lookup in Hwa. rewrite Forall_lookup in Hwg.
    destruct (scale_box_well_formed rate g Hrate (Hwg _ _ Hgj))
      as (g' & -> & Hwg').
    pose proof (well_formed_union a g' (Hwa _ _ Hai) Hwg') as Hu.
    rewrite iou_fbox, ndiv_Some by lra. done.
Qed.

(** * Further properties of [generate_anchors] *)

(** X1.  [generate_anchors] raises when [anchor_stride] is 0 (the zero
    step of [np.arange]), whatever the other arguments are. *)
Theorem generate_anchors_stride_zero (fmap_shape : nat * nat) (rate : R)
    (scales ratios : list R) :
  generate_anchors fmap_shape rate scales ratios 0 = Raises.
Proof. unfold generate_anchors. by rewrite let_pair. Qed.

Lemma ceil_div_eq_zero (n s : nat) :
  (0 < s)%nat → ceil_div n s = 0%nat ↔ n = 0%nat.
Proof.
  intros Hs. pose proof (ceil_div_ceiling n s Hs) as Hc. split.
  - intros H0. rewrite H0 in Hc. lia.
  - intros ->. by apply ceil_div_zero.
Qed.

Lemma anchors_spec_length (fmap_shape : nat * nat) (rate : R)
    (scales ratios : list R) (stride : nat) :
  length (anchors_spec fmap_shape rate scales ratios stride)
  = (ceil_div fmap_shape.1 stride * ceil_div fmap_shape.2 stride
     * (length ratios * length scales))%nat.
Proof.
  rewrite <- anchors_grid_spec. unfold anchor_centers, anchor_sizes.
  by rewrite !concat_grid_length, !length_seq.
Qed.

(** X2.  For a stride of at least 1, [generate_anchors] returns the empty
    anchor set exactly when the feature map has no row or no column, or
    there is no scale or no ratio. *)
Theorem generate_anchors_empty_iff (H W : nat) (rate : R)
    (scales ratios : list R) (stride : nat) :
  stride ≠ 0%nat →
  generate_anchors (H, W) rate scales ratios stride = Ok []
  ↔ H = 0%nat ∨ W = 0%nat ∨ scales = [] ∨ ratios = [].
Proof.
  intros Hs.
  rewrite generate_anchors_grid, anchors_grid_spec by done.
  pose proof (anchors_spec_length (H, W) rate scales ratios stride) as Hlen.
  cbn [fst snd] in Hlen.
  pose proof (ceil_div_eq_zero H stride ltac:(lia)) as HH.
  pose proof (ceil_div_eq_zero W stride ltac:(lia)) as HW.
  split.
  - intros [= Hnil]. rewrite Hnil in Hlen. simpl in Hlen. symmetry in Hlen.
    apply Nat.eq_mul_0 in Hlen as [Hpos | Hpairs].
    + apply Nat.eq_mul_0 in Hpos as [H0 | H0]; [left | right; left];
        [by apply HH | by apply HW].
    + right. right.
      apply Nat.eq_mul_0 in Hpairs as [H0 | H0]; [right | left];
        by apply nil_length_inv.
  - intros Hor. f_equal. apply nil_length_inv. rewrite Hlen.
    destruct Hor as [-> | [-> | [-> | ->]]];
      rewrite ?ceil_div_zero by lia; simpl; lia.
Qed.

Lemma generate_anchors_empty_iff_witness :
  generate_anchors (0%nat, 4%nat) 1 [4] [1] 1 = Ok []
  ↔ 0%nat = 0%nat ∨ 4%nat = 0%nat ∨ [4] = [] ∨ [1] = [].
Proof. apply (generate_anchors_empty_iff 0 4 1 [4] [1] 1). lia. Defined.

Lemma map_bind {A B C : Type} (f : B → C) (g : A → list B) (l : list A) :
  map f (l ≫= g) = x ← l; map f (g x).
Proof.
  induction l as [|a l IH]; [done|].
  by rewrite !bind_cons, map_app, IH.
Qed.

Lemma sqrt_pos (r : R) : 0 < r → 0 < sqrt r.
Proof. apply sqrt_lt_R0. Qed.

Lemma anchor_size_real (scale ratio : R) :
  0 < ratio →
  anchor_size scale ratio
  = (Some (scale / sqrt ratio), Some (scale * sqrt ratio)).
Proof.
  intros Hr. pose proof (sqrt_pos ratio Hr) as Hs. unfold anchor_size.
  rewrite nsqrt_Some by lra. by rewrite ndiv_Some by lra.
Qed.

Lemma grid_center_real (stride : nat) (rate : R) (i : nat) :
  rate ≠ 0 → grid_center stride rate i = Some (INR (i * stride) / rate).
Proof. intros Hr. unfold grid_center. by rewrite ndiv_Some. Qed.

Lemma anchor_box_real (cy cx h w : R) :
  anchor_box (Some cy) (Some cx) (Some h) (Some w)
  = fbox (anchor_rbox cy cx h w).
Proof. reflexivity. Qed.

(** For a non-zero rate and positive ratios every coordinate is real. *)
Lemma anchors_spec_real (fmap_shape : nat * nat) (rate : R)
    (scales ratios : list R) (stride : nat) :
  rate ≠ 0 → Forall (λ ratio, 0 < ratio) ratios →
  anchors_spec fmap_shape rate scales ratios stride
  = map fbox (anchors_R fmap_shape rate scales ratios stride).
Proof.
  intros Hrate Hratios. unfold anchors_spec, anchors_R.
  rewrite map_bind. apply list_bind_ext; [intros iy | done].
  rewrite map_bind. apply list_bind_ext; [intros ix | done].
  rewrite map_bind. apply Forall_bind_ext.
  eapply Forall_impl; [exact Hratios|]. intros ratio Hr. cbv beta.
  rewrite map_bind. apply list_bind_ext; [intros scale | done].
  rewrite anchor_size_real, !grid_center_real by done.
  cbn [fst snd map]. by rewrite anchor_box_real.
Qed.

Lemma anchors_R_well_formed (fmap_shape : nat * nat) (rate : R)
    (scales ratios : list R) (stride : nat) :
  Forall (λ scale, 0 <= scale) scales → Forall (λ ratio, 0 < ratio) ratios →
  Forall well_formed (anchors_R fmap_shape rate scales ratios stride).
Proof.
  intros Hscales Hratios. unfold anchors_R.
  apply Forall_bind, Forall_true. intros iy.
  apply Forall_bind, Forall_true. intros ix.
  apply Forall_bind. eapply Forall_impl; [exact Hratios|].
  intros ratio Hr. apply Forall_bind.
  eapply Forall_impl; [exact Hscales|]. intros scale Hs.
  apply Forall_singleton. unfold anchor_rbox, well_formed.
  pose proof (sqrt_pos ratio Hr) as Hsq.
  assert (0 < / sqrt ratio) by (by apply Rinv_0_lt_compat).
  assert (0 <= scale / sqrt ratio) by (unfold Rdiv; nra).
  assert (0 <= scale * sqrt ratio) by nra.
  lra.
Qed.

(** X3.  For a stride of at least 1, a non-zero downsample rate,
    non-negative scales and positive ratios, every anchor that
    [generate_anchors] returns has real coordinates with
    [coord2 >= coord1] on each axis. *)
Theorem generate_anchors_well_formed (fmap_shape : nat * nat) (rate : R)
    (scales ratios : list R) (stride : nat) :
  stride ≠ 0%nat → rate ≠ 0 →
  Forall (λ scale, 0 <= scale) scales → Forall (λ ratio, 0 < ratio) ratios →
  ∃ anchors : list rbox,
    generate_anchors fmap_shape rate scales ratios stride
    = Ok (map fbox anchors)
    ∧ Forall well_formed anchors.
Proof.
  intros Hs Hrate Hscales Hratios.
  exists (anchors_R fmap_shape rate scales ratios stride). split.
  - rewrite generate_anchors_grid, anchors_grid_spec by done.
    by rewrite anchors_spec_real.
  - by apply anchors_R_well_formed.
Qed.

Lemma generate_anchors_well_formed_witness :
  ∃ anchors : list rbox,
    generate_anchors (4%nat, 4%nat) 1 [4] [1] 1 = Ok (map fbox anchors)
    ∧ Forall well_formed anchors.
Proof.
  apply (generate_anchors_well_formed (4%nat, 4%nat) 1 [4] [1] 1);
    [lia | lra | repeat constructor; lra | repeat constructor; lra].
Defined.

Lemma anchor_rbox_geometry (cy cx scale ratio : R) :
  0 < ratio →
  let '(y1, x1, y2, x2) :=
    anchor_rbox cy cx (scale / sqrt ratio) (scale * sqrt ratio) in
  (y1 + y2) / 2 = cy ∧ (x1 + x2) / 2 = cx
  ∧ (y2 - y1) * (x2 - x1) = scale * scale
  ∧ x2 - x1 = ratio * (y2 - y1).
Proof.
  intros Hr. pose proof (sqrt_pos ratio Hr) as Hs.
  pose proof (sqrt_sqrt ratio ltac:(lra)) as Hsq.
  unfold anchor_rbox. split; [lra|]. split; [lra|].
  replace (cy + 1 / 2 * (scale / sqrt ratio)
           - (cy - 1 / 2 * (scale / sqrt ratio)))
    with (scale / sqrt ratio) by lra.
  replace (cx + 1 / 2 * (scale * sqrt ratio)
           - (cx - 1 / 2 * (scale * sqrt ratio)))
    with (scale * sqrt ratio) by lra.
  split; [field; lra|].
  rewrite <- Hsq at 2. field. lra.
Qed.

(** X4.  For a stride of at least 1, a non-zero downsample rate and
    positive ratios, every anchor [(y1, x1, y2, x2)] that
    [generate_anchors] returns is centered on a strided grid position
    divided by the rate, and comes from a scale and a ratio of the input
    with [height * width = scale^2] and [width = ratio * height]. *)
Theorem generate_anchors_geometry (H W : nat) (rate : R)
    (scales ratios : list R) (stride : nat) :
  stride ≠ 0%nat → rate ≠ 0 → Forall (λ ratio, 0 < ratio) ratios →
  ∃ anchors : list rbox,
    generate_anchors (H, W) rate scales ratios stride = Ok (map fbox anchors)
    ∧ Forall
        (λ b : rbox,
           let '(y1, x1, y2, x2) := b in
           ∃ (iy ix : nat) (ratio scale : R),
             (iy * stride < H)%nat ∧ (ix * stride < W)%nat
             ∧ ratio ∈ ratios ∧ scale ∈ scales
             ∧ (y1 + y2) / 2 = INR (iy * stride) / rate
             ∧ (x1 + x2) / 2 = INR (ix * stride) / rate
             ∧ (y2 - y1) * (x2 - x1) = scale * scale
             ∧ x2 - x1 = ratio * (y2 - y1))
        anchors.
Proof.
  intros Hs Hrate Hratios.
  exists (anchors_R (H, W) rate scales ratios stride). split.
  { rewrite generate_anchors_grid, anchors_grid_spec by done.
    by rewrite anchors_spec_real. }
  rewrite Forall_forall in Hratios.
  apply Forall_forall. intros b. unfold anchors_R. cbn [fst snd].
  intros (iy & (ix & (ratio & (scale & Hb & Hscale)%list_elem_of_bind
                        & Hratio)%list_elem_of_bind
                & Hix)%list_elem_of_bind & Hiy)%list_elem_of_bind.
  apply list_elem_of_singleton in Hb as ->.
  apply elem_of_seq in Hiy as [_ Hiy]. apply elem_of_seq in Hix as [_ Hix].
  pose proof (ceil_div_ceiling H stride ltac:(lia)) as HcH.
  pose proof (ceil_div_ceiling W stride ltac:(lia)) as HcW.
  pose proof (anchor_rbox_geometry (INR (iy * stride) / rate)
                (INR (ix * stride) / rate) scale ratio (Hratios _ Hratio))
    as Hgeo.
  destruct (anchor_rbox _ _ _ _) as [[[y1 x1] y2] x2].
  destruct Hgeo as (Hcy & Hcx & Harea & Haspect).
  exists iy, ix, ratio, scale.
  repeat split; try done; nia.
Qed.

Lemma generate_anchors_geometry_witness :
  ∃ anchors : list rbox,
    generate_anchors (4%nat, 4%nat) 1 [4] [1] 1 = Ok (map fbox anchors)
    ∧ Forall
        (λ b : rbox,
           let '(y1, x1, y2, x2) := b in
           ∃ (iy ix : nat) (ratio scale : R),
             (iy * 1 < 4)%nat ∧ (ix * 1 < 4)%nat
             ∧ ratio ∈ [1] ∧ scale ∈ [4]
             ∧ (y1 + y2) / 2 = INR (iy * 1) / 1
             ∧ (x1 + x2) / 2 = INR (ix * 1) / 1
             ∧ (y2 - y1) * (x2 - x1) = scale * scale
             ∧ x2 - x1 = ratio * (y2 - y1))
        anchors.
Proof.
  apply (generate_anchors_geometry 4 4 1 [4] [1] 1);
    [lia | lra | repeat constructor; lra].
Defined.

Lemma grid_center_zero_rate (stride i : nat) : grid_center stride 0 i = None.
Proof. apply ndiv_zero. Qed.

(** X5.  With a downsample rate of 0 (and a stride of at least 1),
    [generate_anchors] still returns the full anchor set, but no
    coordinate of any anchor is a real number: the centers are quotients
    by zero. *)
Theorem generate_anchors_zero_rate (fmap_shape : nat * nat)
    (scales ratios : list R) (stride : nat) :
  stride ≠ 0%nat →
  ∃ boxes,
    generate_anchors fmap_shape 0 scales ratios stride = Ok boxes
    ∧ length boxes
      = (ceil_div fmap_shape.1 stride * ceil_div fmap_shape.2 stride
         * (length ratios * length scales))%nat
    ∧ Forall (λ b, b = nan_box) boxes.
Proof.
  intros Hs. exists (anchors_spec fmap_shape 0 scales ratios stride).
  split; [by rewrite generate_anchors_grid, anchors_grid_spec|].
  split; [apply anchors_spec_length|].
  unfold anchors_spec.
  apply Forall_bind, Forall_true. intros iy.
  apply Forall_bind, Forall_true. intros ix.
  apply Forall_bind, Forall_true. intros ratio.
  apply Forall_bind, Forall_true. intros scale.
  apply Forall_singleton. by rewrite !grid_center_zero_rate.
Qed.

Lemma generate_anchors_zero_rate_witness :
  ∃ boxes,
    generate_anchors (4%nat, 4%nat) 0 [4] [1] 1 = Ok boxes
    ∧ length boxes
      = (ceil_div 4 1 * ceil_div 4 1 * (length [1] * length [4]))%nat
    ∧ Forall (λ b, b = nan_box) boxes.
Proof.
  apply (generate_anchors_zero_rate (4%nat, 4%nat) [4] [1] 1). lia.
Defined.

Lemma anchor_size_nonpositive (scale ratio : R) :
  ratio <= 0 → (anchor_size scale ratio).1 = None.
Proof.
  intros Hr. unfold anchor_size. cbn [fst].
  destruct (Rle_lt_or_eq_dec _ _ Hr) as [Hneg | ->].
  - unfold nsqrt. destruct (Rle_dec 0 ratio); [lra | done].
  - rewrite nsqrt_Some, sqrt_0 by lra. apply ndiv_zero.
Qed.

(** X6.  A ratio that is zero or negative is not rejected: when no ratio
    is positive, the first and third coordinates ([y1] and [y2]) of
    every returned anchor are not real numbers, because the height
    [scale / sqrt ratio] is a quotient by zero or involves the root of a
    negative number. *)
Theorem generate_anchors_nonpositive_ratio (fmap_shape : nat * nat)
    (rate : R) (scales ratios : list R) (stride : nat) :
  stride ≠ 0%nat → Forall (λ ratio, ratio <= 0) ratios →
  ∃ boxes,
    generate_anchors fmap_shape rate scales ratios stride = Ok boxes
    ∧ Forall (λ b, col0 b = None ∧ col2 b = None) boxes.
Proof.
  intros Hs Hratios.
  exists (anchors_spec fmap_shape rate scales ratios stride).
  split; [by rewrite generate_anchors_grid, anchors_grid_spec|].
  unfold anchors_spec.
  apply Forall_bind, Forall_true. intros iy.
  apply Forall_bind, Forall_true. intros ix.
  apply Forall_bind. eapply Forall_impl; [exact Hratios|].
  intros ratio Hr. apply Forall_bind, Forall_true. intros scale.
  apply Forall_singleton. rewrite anchor_size_nonpositive by done.
  unfold anchor_box, col0, col2. cbn [fst snd].
  destruct (grid_center stride rate iy); done.
Qed.

Lemma generate_anchors_nonpositive_ratio_witness :
  ∃ boxes,
    generate_anchors (4%nat, 4%nat) 1 [4] [0] 1 = Ok boxes
    ∧ Forall (λ b, col0 b = None ∧ col2 b = None) boxes.
Proof.
  apply (generate_anchors_nonpositive_ratio (4%nat, 4%nat) 1 [4] [0] 1);
    [lia | repeat constructor; lra].
Defined.

(** * Further properties of [calc_overlap] *)

Lemma lift2_comm (f : R → R → R) (a b : num) :
  (∀ x y, f x y = f y x) → lift2 f a b = lift2 f b a.
Proof. intros Hf. destruct a, b; simpl; [by rewrite Hf | done..]. Qed.

Lemma iou_comm (q r : box) : iou q r = iou r q.
Proof.
  assert (intersect_area q r = intersect_area r q) as Hi.
  { unfold intersect_area, nmax, nmin.
    by rewrite (lift2_comm Rmin (col2 q)), (lift2_comm Rmax (col0 q)),
      (lift2_comm Rmin (col3 q)), (lift2_comm Rmax (col1 q))
      by (intros; first [apply Rmin_comm | apply Rmax_comm]). }
  unfold iou, union_area. rewrite Hi. f_equal. f_equal.
  apply lift2_comm. intros. apply Rplus_comm.
Qed.

Lemma grid_entry {A B C : Type} (F : A → B → C) (ys : list A) (xs : list B)
    (i j : nat) :
  entry (grid F ys xs) i j = y ← ys !! i; x ← xs !! j; Some (F y x).
Proof.
  unfold entry, grid. rewrite list_lookup_fmap.
  destruct (ys !! i) as [y|]; [|done]. simpl. rewrite list_lookup_fmap.
  by destruct (xs !! j).
Qed.

(** X7.  The overlap does not depend on which set is the query: entry
    [(i, j)] of [calc_overlap query ref] is entry [(j, i)] of
    [calc_overlap ref query]. *)
Theorem calc_overlap_transpose (query_boxes ref_boxes : list box)
    (i j : nat) :
  entry (calc_overlap query_boxes ref_boxes) i j
  = entry (calc_overlap ref_boxes query_boxes) j i.
Proof.
  rewrite !calc_overlap_grid, !grid_entry.
  destruct (query_boxes !! i) as [q|], (ref_boxes !! j) as [r|];
    simpl; [|done..].
  by rewrite iou_comm.
Qed.

Lemma Rmax_shift (a b d : R) : Rmax (a + d) (b + d) = Rmax a b + d.
Proof. real_cases. Qed.

Lemma Rmin_shift (a b d : R) : Rmin (a + d) (b + d) = Rmin a b + d.
Proof. real_cases. Qed.

Lemma inter_R_shift (dx dy : R) (q r : rbox) :
  inter_R (shift_rbox dx dy q) (shift_rbox dx dy r) = inter_R q r.
Proof.
  destruct q as [[[qx1 qy1] qx2] qy2], r as [[[rx1 ry1] rx2] ry2].
  unfold inter_R, shift_rbox.
  rewrite !Rmin_shift, !Rmax_shift.
  f_equal; f_equal; lra.
Qed.

Lemma area_R_shift (dx dy : R) (b : rbox) :
  area_R (shift_rbox dx dy b) = area_R b.
Proof.
  destruct b as [[[x1 y1] x2] y2]. unfold area_R, shift_rbox.
  f_equal; lra.
Qed.

Lemma iou_shift (dx dy : R) (q r : rbox) :
  iou (fbox (shift_rbox dx dy q)) (fbox (shift_rbox dx dy r))
  = iou (fbox q) (fbox r).
Proof.
  rewrite !iou_fbox. unfold union_R.
  by rewrite inter_R_shift, !area_R_shift.
Qed.

(** X8.  Moving all query boxes and all reference boxes by one and the
    same offset [(dx, dy)] leaves the overlap matrix unchanged. *)
Theorem calc_overlap_shift (dx dy : R) (query_boxes ref_boxes : list rbox) :
  calc_overlap (map (λ b, fbox (shift_rbox dx dy b)) query_boxes)
    (map (λ b, fbox (shift_rbox dx dy b)) ref_boxes)
  = calc_overlap (map fbox query_boxes) (map fbox ref_boxes).
Proof.
  rewrite !calc_overlap_grid, !grid_map. unfold grid.
  apply map_ext. intros q. apply map_ext. intros r. apply iou_shift.
Qed.

Lemma side_full (q1 q2 r1 r2 : R) :
  q1 <= q2 → r1 <= r2 →
  Rmax 0 (Rmin q2 r2 - Rmax q1 r1 + 1) = q2 - q1 + 1 →
  r1 <= q1 ∧ q2 <= r2.
Proof. intros Hq Hr. real_cases. Qed.

Lemma side_zero (q1 q2 r1 r2 : R) :
  q1 <= q2 → r1 <= r2 →
  Rmax 0 (Rmin q2 r2 - Rmax q1 r1 + 1) = 0 →
  q2 + 1 <= r1 ∨ r2 + 1 <= q1.
Proof.
  intros Hq Hr Hz.
  destruct (Rle_dec (q2 + 1) r1) as [Hle|Hgt]; [by left | right].
  pose proof (Rmax_r 0 (Rmin q2 r2 - Rmax q1 r1 + 1)) as Hx.
  rewrite Hz in Hx. unfold Rmin, Rmax in Hx.
  destruct (Rle_dec q2 r2), (Rle_dec q1 r1); lra.
Qed.

Lemma product_full (a b w h : R) :
  0 < a <= w → 0 < b <= h → a * b = w * h → a = w ∧ b = h.
Proof. intros Ha Hb Hab. split; nra. Qed.

Lemma inter_R_full (q r : rbox) :
  well_formed q → well_formed r → inter_R q r = area_R q → inside_R q r.
Proof.
  destruct q as [[[qx1 qy1] qx2] qy2], r as [[[rx1 ry1] rx2] ry2].
  unfold well_formed, inter_R, area_R, inside_R.
  intros [Hqx Hqy] [Hrx Hry] Hfull.
  destruct (overlap_side qx1 qx2 rx1 rx2) as [Ha Ha'].
  destruct (overlap_side qy1 qy2 ry1 ry2) as [Hb Hb'].
  assert (0 < (qx2 - qx1 + 1) * (qy2 - qy1 + 1)) as Hpos by nra.
  destruct Ha' as [Ha0 | (Ha0 & Haq & _)];
    [rewrite Ha0 in Hfull; lra|].
  destruct Hb' as [Hb0 | (Hb0 & Hbq & _)];
    [rewrite Hb0 in Hfull; lra|].
  destruct (product_full _ _ _ _ (conj Ha0 Haq) (conj Hb0 Hbq) Hfull)
    as [Hx Hy].
  destruct (side_full _ _ _ _ Hqx Hrx Hx).
  destruct (side_full _ _ _ _ Hqy Hry Hy).
  done.
Qed.

Lemma inter_R_comm (q r : rbox) : inter_R q r = inter_R r q.
Proof.
  destruct q as [[[qx1 qy1] qx2] qy2], r as [[[rx1 ry1] rx2] ry2].
  unfold inter_R.
  by rewrite (Rmin_comm qx2), (Rmax_comm qx1), (Rmin_comm qy2),
    (Rmax_comm qy1).
Qed.

Lemma inside_R_antisym (q r : rbox) : inside_R q r → inside_R r q → q = r.
Proof.
  destruct q as [[[qx1 qy1] qx2] qy2], r as [[[rx1 ry1] rx2] ry2].
  unfold inside_R. intros (? & ? & ? & ?) (? & ? & ? & ?).
  repeat f_equal; lra.
Qed.

Lemma inter_R_inside (q r : rbox) :
  well_formed q → inside_R q r → inter_R q r = area_R q.
Proof.
  destruct q as [[[qx1 qy1] qx2] qy2], r as [[[rx1 ry1] rx2] ry2].
  unfold well_formed, inside_R, inter_R, area_R.
  intros [Hqx Hqy] (Hx1 & Hx2 & Hy1 & Hy2).
  rewrite (Rmin_left qx2 rx2), (Rmin_left qy2 ry2) by lra.
  rewrite (Rmax_left qx1 rx1), (Rmax_left qy1 ry1) by lra.
  by rewrite !Rmax_right by lra.
Qed.

Lemma fbox_inj (q r : rbox) : fbox q = fbox r → q = r.
Proof.
  destruct q as [[[? ?] ?] ?], r as [[[? ?] ?] ?]. unfold fbox.
  by intros [= -> -> -> ->].
Qed.

(** X9.  Two boxes with [coord2 >= coord1] have overlap 1 exactly when
    they are the same box. *)
Theorem calc_overlap_one_iff (q r : rbox) :
  well_formed q → well_formed r →
  calc_overlap [fbox q] [fbox r] = [[Some 1]] ↔ q = r.
Proof.
  intros Hq Hr. rewrite calc_overlap_grid. unfold grid. simpl map.
  pose proof (well_formed_union q r Hq Hr) as Hu.
  pose proof (well_formed_area q Hq) as Haq.
  pose proof (well_formed_area r Hr) as Har.
  rewrite iou_fbox, ndiv_Some by lra. split.
  - intros [= Hone].
    assert (inter_R q r = union_R q r) as Heq.
    { apply (Rmult_eq_compat_r (union_R q r)) in Hone.
      unfold Rdiv in Hone. rewrite Rmult_assoc, Rinv_l in Hone by lra. lra. }
    unfold union_R in Heq.
    destruct (inter_R_bounds q r) as [_ [H0 | (_ & Hiq & Hir)]]; [lra|].
    apply inside_R_antisym.
    + apply inter_R_full; [done | done | lra].
    + apply inter_R_full; [done | done | rewrite inter_R_comm; lra].
  - intros <-. do 3 f_equal. unfold union_R.
    rewrite inter_R_self by done. field. lra.
Qed.

Lemma calc_overlap_one_iff_witness :
  calc_overlap [fbox (0, 0, 1, 1)] [fbox (0, 0, 1, 1)] = [[Some 1]]
  ↔ (0, 0, 1, 1) = ((0, 0, 1, 1) : rbox).
Proof.
  apply (calc_overlap_one_iff (0, 0, 1, 1) (0, 0, 1, 1)); simpl; lra.
Defined.

Lemma inter_R_zero_separated (q r : rbox) :
  well_formed q → well_formed r → inter_R q r = 0 → separated_R q r.
Proof.
  destruct q as [[[qx1 qy1] qx2] qy2], r as [[[rx1 ry1] rx2] ry2].
  unfold well_formed, inter_R, separated_R.
  intros [Hqx Hqy] [Hrx Hry] Hzero.
  apply Rmult_integral in Hzero as [Hx | Hy].
  - destruct (side_zero _ _ _ _ Hqx Hrx Hx); auto.
  - destruct (side_zero _ _ _ _ Hqy Hry Hy); auto.
Qed.

(** X10.  Two boxes with [coord2 >= coord1] have overlap 0 exactly when
    they are at least one unit apart on some axis; boxes that touch, or
    are less than one unit apart, have a positive overlap. *)
Theorem calc_overlap_zero_iff (q r : rbox) :
  well_formed q → well_formed r →
  (calc_overlap [fbox q] [fbox r] = [[Some 0]] ↔ separated_R q r)
  ∧ (¬ separated_R q r →
     ∃ v : R, calc_overlap [fbox q] [fbox r] = [[Some v]] ∧ 0 < v).
Proof.
  intros Hq Hr. rewrite calc_overlap_grid. unfold grid. simpl map.
  pose proof (well_formed_union q r Hq Hr) as Hu.
  rewrite iou_fbox, ndiv_Some by lra.
  assert (inter_R q r / union_R q r = 0 → inter_R q r = 0) as Hzero.
  { intros Hz. apply (Rmult_eq_compat_r (union_R q r)) in Hz.
    unfold Rdiv in Hz. rewrite Rmult_assoc, Rinv_l in Hz by lra. lra. }
  split; [split|].
  - intros [= Hz]. by apply inter_R_zero_separated, Hzero.
  - intros Hsep. rewrite (inter_R_separated q r) by done.
    do 3 f_equal. unfold Rdiv. apply Rmult_0_l.
  - intros Hsep. exists (inter_R q r / union_R q r). split; [done|].
    destruct (inter_R_bounds q r) as [_ [H0 | (Hpos & _)]].
    + exfalso. by apply Hsep, inter_R_zero_separated.
    + apply Rdiv_lt_0_compat; lra.
Qed.

Lemma calc_overlap_zero_iff_witness :
  (calc_overlap [fbox (0, 0, 1, 1)] [fbox (2, 0, 3, 1)] = [[Some 0]]
   ↔ separated_R (0, 0, 1, 1) (2, 0, 3, 1))
  ∧ (¬ separated_R (0, 0, 1, 1) (2, 0, 3, 1) →
     ∃ v : R,
       calc_overlap [fbox (0, 0, 1, 1)] [fbox (2, 0, 3, 1)] = [[Some v]]
       ∧ 0 < v).
Proof.
  apply (calc_overlap_zero_iff (0, 0, 1, 1) (2, 0, 3, 1)); simpl; lra.
Defined.

Lemma inside_R_well_formed (q r : rbox) :
  well_formed q → inside_R q r → well_formed r.
Proof.
  destruct q as [[[qx1 qy1] qx2] qy2], r as [[[rx1 ry1] rx2] ry2].
  unfold well_formed, inside_R. intros [? ?] (? & ? & ? & ?). lra.
Qed.

(** X11.  When a box with [coord2 >= coord1] lies inside another one,
    their overlap is the quotient of the two pixel-inclusive areas
    [area inner / area outer]. *)
Theorem calc_overlap_inside (q r : rbox) :
  well_formed q → inside_R q r →
  calc_overlap [fbox q] [fbox r] = [[Some (area_R q / area_R r)]].
Proof.
  intros Hq Hin. rewrite calc_overlap_grid. unfold grid. simpl map.
  pose proof (inside_R_well_formed q r Hq Hin) as Hr.
  pose proof (well_formed_area r Hr) as Har.
  rewrite iou_fbox. unfold union_R.
  rewrite (inter_R_inside q r Hq Hin).
  replace (area_R q + area_R r - area_R q) with (area_R r) by lra.
  by rewrite ndiv_Some by lra.
Qed.

Lemma calc_overlap_inside_witness :
  calc_overlap [fbox (1, 1, 2, 2)] [fbox (0, 0, 4, 4)]
  = [[Some (area_R (1, 1, 2, 2) / area_R (0, 0, 4, 4))]].
Proof.
  apply (calc_overlap_inside (1, 1, 2, 2) (0, 0, 4, 4)); simpl; lra.
Defined.

(** * Further properties of [calc_anchor_match] *)

(** X12.  [calc_anchor_match] raises when there is no ground-truth box
    (the case the source marks as not handled: the row reduction runs over
    an empty dimension), and also when there is no anchor (the column
    reduction does). *)
Theorem calc_anchor_match_empty (anchors gt_boxes : list box)
    (rate hi lo : R) :
  calc_anchor_match anchors [] rate hi lo = Raises
  ∧ calc_anchor_match [] gt_boxes rate hi lo = Raises.
Proof.
  split; [done|].
  unfold calc_anchor_match, max_dim1, argmax_dim0.
  rewrite calc_overlap_grid. simpl.
  by destruct (length (map (scale_box rate) gt_boxes) =? 0)%nat.
Qed.

Lemma masked_select_sorted (mask : list bool) (s n : nat) :
  StronglySorted lt (masked_select (seq s n) mask).
Proof.
  revert s mask. induction n as [|n IH]; intros s mask; simpl.
  - constructor.
  - destruct mask as [|[] mask]; [constructor | | apply IH].
    constructor; [apply IH|].
    apply Forall_forall. intros i Hi.
    apply elem_of_masked_select_seq in Hi as [Hi _]. lia.
Qed.

(** X13.  The positive and the negative index set that
    [calc_anchor_match] returns are strictly increasing lists of anchor
    indices below the number of anchors. *)
Theorem calc_anchor_match_indices (anchors gt_boxes : list box)
    (rate hi lo : R) (pos_idx neg_idx : list nat) (assigned : list box) :
  calc_anchor_match anchors gt_boxes rate hi lo
  = Ok (pos_idx, neg_idx, assigned) →
  StronglySorted lt pos_idx ∧ StronglySorted lt neg_idx
  ∧ Forall (λ i, (i < length anchors)%nat) pos_idx
  ∧ Forall (λ i, (i < length anchors)%nat) neg_idx.
Proof.
  intros Hm.
  destruct (calc_anchor_match_Ok _ _ _ _ _ _ _ _ Hm)
    as (rs & closest & _ & _ & _ & _ & -> & ->).
  split; [apply masked_select_sorted|].
  split; [apply masked_select_sorted|].
  split; apply Forall_forall; intros i Hi;
    by apply elem_of_select_label in Hi as [Hi _].
Qed.

Lemma calc_anchor_match_indices_witness :
  StronglySorted lt [0%nat] ∧ StronglySorted lt [1%nat]
  ∧ Forall (λ i, (i < 2)%nat) [0%nat]
  ∧ Forall (λ i, (i < 2)%nat) [1%nat].
Proof.
  exact (calc_anchor_match_indices _ _ _ _ _ _ _ _ two_anchor_match).
Defined.

Lemma closest_anchor_bounds (anchors gt_boxes : list box) (rate : R)
    (j : nat) (c : R) (a : nat) :
  closest_anchor anchors gt_boxes rate j = Ok (c, a) →
  ∃ row : list num,
    match_overlaps anchors gt_boxes rate !! a = Some row
    ∧ row !! j = Some (Some c)
    ∧ (j < length gt_boxes)%nat ∧ (a < length anchors)%nat.
Proof.
  unfold closest_anchor. intros Hc.
  destruct (reduce_max_spec _ _ _ Hc) as [Hca _].
  assert (is_Some (match_overlaps anchors gt_boxes rate !! a))
    as [row Hrow].
  { apply lookup_lt_is_Some. rewrite <- (column_length j).
    by eapply lookup_lt_Some. }
  rewrite (column_lookup _ _ _ _ Hrow) in Hca.
  assert (row !! j = Some (Some c)) as Hrj.
  { destruct (row !! j) as [e|]; simpl in Hca; [|done]. congruence. }
  exists row. split; [done|]. split; [done|].
  pose proof (calc_overlap_shape anchors (map (scale_box rate) gt_boxes))
    as [Hrows Hcols].
  fold (match_overlaps anchors gt_boxes rate) in Hrows, Hcols.
  rewrite Forall_lookup in Hcols.
  pose proof (Hcols _ _ Hrow) as Hlen. rewrite length_map in Hlen.
  split.
  - apply lookup_lt_Some in Hrj.
    apply (Nat.lt_le_trans _ _ _ Hrj), Nat.eq_le_incl. exact Hlen.
  - apply lookup_lt_Some in Hrow. by rewrite Hrows in Hrow.
Qed.

Lemma closest_elem_of (anchors gt_boxes : list box) (rate : R)
    (closest : list nat) (a : nat) :
  Forall2 (λ j a, ∃ c, closest_anchor anchors gt_boxes rate j = Ok (c, a))
    (seq 0 (length gt_boxes)) closest →
  a ∈ closest
  ↔ ∃ (j : nat) (c : R), closest_anchor anchors gt_boxes rate j = Ok (c, a).
Proof.
  intros Hcl. split.
  - intros (m & Hm)%list_elem_of_lookup_1.
    destruct (Forall2_lookup_r _ _ _ _ _ Hcl Hm) as (j & _ & c & Hc).
    by exists j, c.
  - intros (j & c & Hc).
    destruct (closest_anchor_bounds _ _ _ _ _ _ Hc) as (_ & _ & _ & Hj & _).
    destruct (Forall2_lookup_l _ _ _ j j Hcl (lookup_seq_lt _ _ _ Hj))
      as (a' & Ha' & c' & Hc').
    rewrite Hc in Hc'. injection Hc' as _ <-.
    by eapply list_elem_of_lookup_2.
Qed.

(** X14.  The label rule of [calc_anchor_match], for an anchor [i] whose
    row-maximum overlap is [v]: [i] is in the negative index set exactly
    when [v < match_thresh_lo]; it is in the positive index set exactly
    when [v] is not below [match_thresh_lo] and either
    [v > match_thresh_hi] or [i] is the column-argmax of some
    ground-truth box; otherwise it is in neither set. *)
Theorem calc_anchor_match_label_rule (anchors gt_boxes : list box)
    (rate hi lo : R) (pos_idx neg_idx : list nat) (assigned : list box)
    (i : nat) (row : list num) (v : R) (k : nat) :
  calc_anchor_match anchors gt_boxes rate hi lo
  = Ok (pos_idx, neg_idx, assigned) →
  match_overlaps anchors gt_boxes rate !! i = Some row →
  reduce_max row = Ok (v, k) →
  (i ∈ neg_idx ↔ v < lo)
  ∧ (i ∈ pos_idx
     ↔ ¬ v < lo
       ∧ (hi < v
          ∨ ∃ (j : nat) (c : R),
              closest_anchor anchors gt_boxes rate j = Ok (c, i))).
Proof.
  intros Hm Hrow Hmax.
  destruct (calc_anchor_match_Ok _ _ _ _ _ _ _ _ Hm)
    as (rs & closest & Hrs & Hcl & _ & _ & -> & ->).
  destruct (overlaps_row_max _ _ _ _ _ _ _ _ Hrs Hrow Hmax) as [Hi Hv].
  pose proof (anchor_labels_lookup _ closest _ hi lo _ _ Hi Hv) as Hlabel.
  rewrite !elem_of_select_label, Hlabel.
  rewrite <- (closest_elem_of _ _ _ _ _ Hcl).
  repeat case_bool_decide; split; split; try done; try tauto;
    try (by intros [_ [=]]); try (by intros _; split); intros [_ [?|?]];
    done.
Qed.

Lemma calc_anchor_match_label_rule_witness :
  (1%nat ∈ [1%nat] ↔ 0 < default_thresh_lo)
  ∧ (1%nat ∈ [0%nat]
     ↔ ¬ 0 < default_thresh_lo
       ∧ (default_thresh_hi < 0
          ∨ ∃ (j : nat) (c : R),
              closest_anchor [fbox (0, 0, 4, 4); fbox (10, 10, 14, 14)]
                [fbox (0, 0, 4, 4)] 1 j = Ok (c, 1%nat))).
Proof.
  apply (calc_anchor_match_label_rule _ _ _ _ _ _ _ _ 1%nat [Some 0] 0 0%nat
           two_anchor_match).
  - by rewrite two_anchor_overlaps.
  - reflexivity.
Defined.

Lemma overlaps_rows_length (anchors gt_boxes : list box) (rate : R)
    (rs : list (R * nat)) :
  Forall2 (λ row r, reduce_max row = Ok r)
    (match_overlaps anchors gt_boxes rate) rs →
  length rs = length anchors.
Proof.
  intros Hrs. rewrite <- (Forall2_length _ _ _ Hrs). unfold match_overlaps.
  apply calc_overlap_shape.
Qed.

(** X15.  With [match_thresh_hi < match_thresh_lo] no anchor is ignored:
    every anchor index is in the positive or in the negative index set
    that [calc_anchor_match] returns. *)
Theorem calc_anchor_match_no_ignore (anchors gt_boxes : list box)
    (rate hi lo : R) (pos_idx neg_idx : list nat) (assigned : list box)
    (i : nat) :
  calc_anchor_match anchors gt_boxes rate hi lo
  = Ok (pos_idx, neg_idx, assigned) →
  hi < lo → (i < length anchors)%nat →
  i ∈ pos_idx ∨ i ∈ neg_idx.
Proof.
  intros Hm Hlohi Hi.
  destruct (calc_anchor_match_Ok _ _ _ _ _ _ _ _ Hm)
    as (rs & closest & Hrs & _ & _ & _ & -> & ->).
  pose proof (overlaps_rows_length _ _ _ _ Hrs) as Hlen.
  destruct (lookup_lt_is_Some_2 rs i ltac:(lia)) as [[v k] Hr].
  assert (map fst rs !! i = Some v) as Hv
    by (by rewrite list_lookup_fmap, Hr).
  pose proof (anchor_labels_lookup _ closest _ hi lo _ _ Hi Hv) as Hlabel.
  rewrite !elem_of_select_label, Hlabel.
  case_bool_decide as Hlo; [by right | left].
  rewrite (bool_decide_eq_true_2 (hi < v)) by lra. done.
Qed.

Lemma two_anchor_match_swapped :
  calc_anchor_match [fbox (0, 0, 4, 4); fbox (10, 10, 14, 14)]
    [fbox (0, 0, 4, 4)] 1 (3 / 10) (7 / 10)
  = Ok ([0%nat], [1%nat],
        [fbox (0 * 1, 0 * 1, 4 * 1, 4 * 1);
         fbox (0 * 1, 0 * 1, 4 * 1, 4 * 1)]).
Proof.
  rewrite (calc_anchor_match_eval _ _ _ _ _
             [(1, 0%nat); (0, 0%nat)] [0%nat]
             [fbox (0 * 1, 0 * 1, 4 * 1, 4 * 1);
              fbox (0 * 1, 0 * 1, 4 * 1, 4 * 1)]); [|done|done| | |].
  - unfold anchor_labels. simpl map. thresholds. reflexivity.
  - rewrite two_anchor_overlaps. by repeat constructor.
  - reflexivity.
  - repeat constructor. exists 1. apply two_anchor_closest.
Qed.

Lemma calc_anchor_match_no_ignore_witness :
  1%nat ∈ [0%nat] ∨ 1%nat ∈ [1%nat].
Proof.
  apply (calc_anchor_match_no_ignore _ _ _ _ _ _ _ _ 1%nat
           two_anchor_match_swapped); [lra | simpl; lia].
Defined.

Lemma calc_anchor_match_gather (anchors gt_boxes : list box) (rate hi lo : R)
    (pos_idx neg_idx : list nat) (assigned : list box) :
  calc_anchor_match anchors gt_boxes rate hi lo
  = Ok (pos_idx, neg_idx, assigned) →
  ∃ rs : list (R * nat),
    Forall2 (λ row r, reduce_max row = Ok r)
      (match_overlaps anchors gt_boxes rate) rs
    ∧ Forall2 (λ r b, map (scale_box rate) gt_boxes !! r.2 = Some b)
        rs assigned.
Proof.
  unfold calc_anchor_match, max_dim1, argmax_dim0.
  fold (match_overlaps anchors gt_boxes rate).
  destruct (length (map (scale_box rate) gt_boxes) =? 0)%nat; [done|].
  destruct (map_outcome reduce_max (match_overlaps anchors gt_boxes rate))
    as [rs| |] eqn:Hrs; simpl; [|done..].
  destruct (gather _ _) as [asg| |] eqn:Hasg; simpl; [|done..].
  destruct (length anchors =? 0)%nat; [done|].
  destruct (map_outcome _ (seq 0 _)) as [closest| |]; simpl; [|done..].
  intros [= _ _ <-]. exists rs. split; [by apply map_outcome_Ok|].
  unfold gather in Hasg. apply map_outcome_Ok in Hasg.
  apply Forall2_fmap_l in Hasg.
  eapply Forall2_impl; [exact Hasg|]. simpl. intros r b Hb.
  by destruct (map (scale_box rate) gt_boxes !! r.2) as [b'|];
    [injection Hb as -> |].
Qed.

(** X16.  The third result of [calc_anchor_match] has one box per anchor:
    for anchor [i] it is the ground-truth box, multiplied by the
    downsample rate, whose overlap with the anchor is the row maximum
    (the first such box). *)
Theorem calc_anchor_match_assigned (anchors gt_boxes : list box)
    (rate hi lo : R) (pos_idx neg_idx : list nat) (assigned : list box)
    (i : nat) (row : list num) (v : R) (k : nat) :
  calc_anchor_match anchors gt_boxes rate hi lo
  = Ok (pos_idx, neg_idx, assigned) →
  match_overlaps anchors gt_boxes rate !! i = Some row →
  reduce_max row = Ok (v, k) →
  length assigned = length anchors
  ∧ row !! k = Some (Some v)
  ∧ ∃ g : box,
      gt_boxes !! k = Some g ∧ assigned !! i = Some (scale_box rate g).
Proof.
  intros Hm Hrow Hmax.
  destruct (calc_anchor_match_gather _ _ _ _ _ _ _ _ Hm)
    as (rs & Hrs & Hasg).
  split.
  { rewrite <- (Forall2_length _ _ _ Hasg).
    by eapply overlaps_rows_length. }
  split; [by apply (reduce_max_spec _ _ _ Hmax)|].
  destruct (Forall2_lookup_l _ _ _ _ _ Hrs Hrow) as (r & Hr & Hmax').
  rewrite Hmax in Hmax'. injection Hmax' as <-.
  destruct (Forall2_lookup_l _ _ _ _ _ Hasg Hr) as (b & Hb & Hgt).
  simpl in Hgt. rewrite list_lookup_fmap in Hgt.
  destruct (gt_boxes !! k) as [g|]; [|done]. injection Hgt as <-.
  by exists g.
Qed.

Lemma calc_anchor_match_assigned_witness :
  length [fbox (0 * 1, 0 * 1, 4 * 1, 4 * 1);
          fbox (0 * 1, 0 * 1, 4 * 1, 4 * 1)]
  = length [fbox (0, 0, 4, 4); fbox (10, 10, 14, 14)]
  ∧ [Some 0] !! 0%nat = Some (Some 0)
  ∧ ∃ g : box,
      [fbox (0, 0, 4, 4)] !! 0%nat = Some g
      ∧ [fbox (0 * 1, 0 * 1, 4 * 1, 4 * 1);
         fbox (0 * 1, 0 * 1, 4 * 1, 4 * 1)] !! 1%nat
        = Some (scale_box 1 g).
Proof.
  apply (calc_anchor_match_assigned _ _ _ _ _ _ _ _ 1%nat [Some 0] 0 0%nat
           two_anchor_match).
  - by rewrite two_anchor_overlaps.
  - reflexivity.
Defined.

Lemma iou_Some_fbox (q r : box) (v : R) :
  iou q r = Some v → ∃ q' r' : rbox, q = fbox q' ∧ r = fbox r'.
Proof.
  destruct q as [[[[q0|] [q1|]] [q2|]] [q3|]],
           r as [[[[r0|] [r1|]] [r2|]] [r3|]];
    try (intros Hnone; discriminate Hnone).
  intros _. by exists (q0, q1, q2, q3), (r0, r1, r2, r3).
Qed.

(** Every overlap that is a real number lies in [[0, 1]]. *)
Lemma iou_Some_range (q r : box) (v : R) : iou q r = Some v → 0 <= v <= 1.
Proof.
  intros Hv. destruct (iou_Some_fbox _ _ _ Hv) as (q' & r' & -> & ->).
  rewrite iou_fbox in Hv. unfold ndiv in Hv.
  destruct (Req_dec_T (union_R q' r') 0) as [|Hu]; [done|].
  injection Hv as <-. by apply iou_range.
Qed.

Lemma overlaps_row_max_le_1 (anchors gt_boxes : list box) (rate : R)
    (i : nat) (row : list num) (v : R) (k : nat) :
  match_overlaps anchors gt_boxes rate !! i = Some row →
  reduce_max row = Ok (v, k) → 0 <= v <= 1.
Proof.
  intros Hrow Hmax. destruct (reduce_max_spec _ _ _ Hmax) as [Hk _].
  assert (entry (match_overlaps anchors gt_boxes rate) i k = Some (Some v))
    as Hentry by (unfold entry; by rewrite Hrow).
  unfold match_overlaps in Hentry. rewrite calc_overlap_grid in Hentry.
  apply grid_lookup_inv in Hentry as (q & r & _ & _ & Hv).
  by eapply iou_Some_range.
Qed.

Lemma masked_select_NoDup {A : Type} (t : list A) (mask : list bool) :
  NoDup t → NoDup (masked_select t mask).
Proof.
  intros Ht. apply (sublist_NoDup _ t); [done|]. clear Ht.
  revert mask. induction t as [|x t IH]; intros mask; simpl;
    [apply sublist_nil_l|].
  destruct mask as [|[] mask].
  - apply sublist_nil_l.
  - by apply sublist_skip.
  - by apply sublist_cons.
Qed.

(** X17.  When [match_thresh_hi] is at least 1, only best matches can be
    positive: [calc_anchor_match] returns at most as many positive
    indices as there are ground-truth boxes. *)
Theorem calc_anchor_match_high_threshold (anchors gt_boxes : list box)
    (rate hi lo : R) (pos_idx neg_idx : list nat) (assigned : list box) :
  calc_anchor_match anchors gt_boxes rate hi lo
  = Ok (pos_idx, neg_idx, assigned) →
  1 <= hi →
  (length pos_idx ≤ length gt_boxes)%nat.
Proof.
  intros Hm Hhi.
  destruct (calc_anchor_match_Ok _ _ _ _ _ _ _ _ Hm)
    as (rs & closest & Hrs & Hcl & _ & _ & -> & _).
  pose proof (Forall2_length _ _ _ Hcl) as Hlen.
  rewrite length_seq in Hlen. rewrite Hlen.
  apply submseteq_length, NoDup_submseteq.
  { apply masked_select_NoDup, NoDup_seq. }
  intros i [Hi Hlabel]%elem_of_select_label.
  pose proof (overlaps_rows_length _ _ _ _ Hrs) as Hrows.
  destruct (lookup_lt_is_Some_2 rs i ltac:(lia)) as [[v k] Hr].
  destruct (Forall2_lookup_r _ _ _ _ _ Hrs Hr) as (row & Hrow & Hmax).
  pose proof (overlaps_row_max_le_1 _ _ _ _ _ _ _ Hrow Hmax) as Hv1.
  assert (map fst rs !! i = Some v) as Hv
    by (by rewrite list_lookup_fmap, Hr).
  rewrite (anchor_labels_lookup _ closest _ hi lo _ _ Hi Hv) in Hlabel.
  rewrite (bool_decide_eq_false_2 (hi < v)) in Hlabel by lra.
  case_bool_decide; [done|]. by case_bool_decide.
Qed.

Lemma two_anchor_match_hi_one :
  calc_anchor_match [fbox (0, 0, 4, 4); fbox (10, 10, 14, 14)]
    [fbox (0, 0, 4, 4)] 1 1 default_thresh_lo
  = Ok ([0%nat], [1%nat],
        [fbox (0 * 1, 0 * 1, 4 * 1, 4 * 1);
         fbox (0 * 1, 0 * 1, 4 * 1, 4 * 1)]).
Proof.
  rewrite (calc_anchor_match_eval _ _ _ _ _
             [(1, 0%nat); (0, 0%nat)] [0%nat]
             [fbox (0 * 1, 0 * 1, 4 * 1, 4 * 1);
              fbox (0 * 1, 0 * 1, 4 * 1, 4 * 1)]); [|done|done| | |].
  - unfold anchor_labels, default_thresh_lo. simpl map. thresholds.
    reflexivity.
  - rewrite two_anchor_overlaps. by repeat constructor.
  - reflexivity.
  - repeat constructor. exists 1. apply two_anchor_closest.
Qed.

Lemma calc_anchor_match_high_threshold_witness :
  (length [0%nat] ≤ 1)%nat.
Proof.
  apply (calc_anchor_match_high_threshold _ _ _ _ _ _ _ _
           two_anchor_match_hi_one). lra.
Defined.

Lemma iou_self (b : rbox) : well_formed b → iou (fbox b) (fbox b) = Some 1.
Proof.
  intros Hb. pose proof (well_formed_area b Hb) as Ha.
  apply (iou_value_eq b b (area_R b) (area_R b)).
  - by apply inter_R_self.
  - unfold union_R. rewrite inter_R_self by done. lra.
  - lra.
  - field. lra.
Qed.

(** X18.  An anchor that coincides with a ground-truth box (multiplied by
    the downsample rate) is in the positive index set whenever
    [match_thresh_hi < 1] and [match_thresh_lo <= 1]. *)
Theorem calc_anchor_match_exact (anchors gt_boxes : list box)
    (rate hi lo : R) (pos_idx neg_idx : list nat) (assigned : list box)
    (i j : nat) (a : rbox) (g : box) :
  calc_anchor_match anchors gt_boxes rate hi lo
  = Ok (pos_idx, neg_idx, assigned) →
  anchors !! i = Some (fbox a) → gt_boxes !! j = Some g →
  scale_box rate g = fbox a → well_formed a →
  hi < 1 → lo <= 1 →
  i ∈ pos_idx.
Proof.
  intros Hm Ha Hg Hscale Hwf Hhi Hlo.
  destruct (calc_anchor_match_Ok _ _ _ _ _ _ _ _ Hm)
    as (rs & closest & Hrs & _ & _ & _ & -> & _).
  assert (entry (match_overlaps anchors gt_boxes rate) i j = Some (Some 1))
    as Hentry.
  { unfold match_overlaps.
    rewrite (calc_overlap_entry _ _ i j (fbox a) (fbox a) Ha).
    - by rewrite iou_self.
    - by rewrite list_lookup_fmap, Hg, <- Hscale. }
  unfold entry in Hentry.
  destruct (match_overlaps anchors gt_boxes rate !! i) as [row|] eqn:Hrow;
    [|done].
  simpl in Hentry.
  destruct (Forall2_lookup_l _ _ _ _ _ Hrs Hrow) as ([v k] & Hr & Hmax).
  destruct (reduce_max_spec _ _ _ Hmax) as [_ Hle].
  destruct (Hle _ _ Hentry) as (x & [= <-] & Hv1).
  destruct (overlaps_row_max _ _ _ _ _ _ _ _ Hrs Hrow Hmax) as [Hi Hv].
  rewrite elem_of_select_label.
  rewrite (anchor_labels_lookup _ closest _ hi lo _ _ Hi Hv).
  rewrite (bool_decide_eq_false_2 (v < lo)) by lra.
  by rewrite (bool_decide_eq_true_2 (hi < v)) by lra.
Qed.

Lemma calc_anchor_match_exact_witness : 0%nat ∈ [0%nat].
Proof.
  apply (calc_anchor_match_exact _ _ _ _ _ _ _ _ 0%nat 0%nat
           (0 * 1, 0 * 1, 4 * 1, 4 * 1) (fbox (0, 0, 4, 4))
           two_anchor_match);
    unfold default_thresh_hi, default_thresh_lo;
    [ simpl; do 2 f_equal; unfold fbox; repeat f_equal; lra
    | reflexivity | reflexivity | simpl; lra | lra | lra ].
Defined.

Lemma nmul_one (a : num) : (a ⊗ Some 1)%num = a.
Proof. destruct a as [x|]; simpl; [|done]. f_equal. apply Rmult_1_r. Qed.

Lemma scale_box_one (b : box) : scale_box 1 b = b.
Proof.
  destruct b as [[[c0 c1] c2] c3]. unfold scale_box, col0, col1, col2, col3.
  cbn [fst snd]. by rewrite !nmul_one.
Qed.

(** X19.  The downsample rate enters [calc_anchor_match] only through the
    ground-truth boxes: matching against [gt_boxes] with rate [s] is
    matching against the boxes [gt_boxes * s] with rate 1. *)
Theorem calc_anchor_match_rate (anchors gt_boxes : list box) (rate hi lo : R) :
  calc_anchor_match anchors gt_boxes rate hi lo
  = calc_anchor_match anchors (map (scale_box rate) gt_boxes) 1 hi lo.
Proof.
  unfold calc_anchor_match.
  replace (map (scale_box 1) (map (scale_box rate) gt_boxes))
    with (map (scale_box rate) gt_boxes); [done|].
  rewrite <- (map_id (map (scale_box rate) gt_boxes)) at 1.
  apply map_ext. intros b. by rewrite scale_box_one.
Qed.

Lemma max_from_first (l : list R) (best : R) (best_i i : nat) (v : R)
    (k : nat) :
  (best_i < i)%nat →
  max_from best best_i i l = (v, k) →
  (k ≠ best_i → best < v)
  ∧ ∀ m x, l !! m = Some x → (i + m < k)%nat → x < v.
Proof.
  revert best best_i i.
  induction l as [|y l IH]; intros best best_i i Hlt; simpl.
  - intros [= <- <-]. split; [done|]. intros m x Hm. by destruct m.
  - destruct (decide (best < y)) as [Hby|Hby]; intros Hmax.
    + destruct (IH _ _ _ (Nat.lt_succ_diag_r i) Hmax) as [Hne Hall].
      destruct (max_from_spec _ _ _ _ _ _ Hmax) as (Hyv & _ & _).
      split; [intros _; lra|].
      intros [|m] x Hm Hk; simpl in Hm.
      * injection Hm as <-. apply Hne. lia.
      * apply (Hall m x Hm). lia.
    + destruct (IH _ _ _ (Nat.lt_lt_succ_r _ _ Hlt) Hmax) as [Hne Hall].
      split; [done|].
      intros [|m] x Hm Hk; simpl in Hm.
      * injection Hm as <-.
        assert (k ≠ best_i) as Hk' by lia. specialize (Hne Hk'). lra.
      * apply (Hall m x Hm). lia.
Qed.

(** The index that [reduce_max] reports is the first one of the maximum. *)
Lemma reduce_max_first (l : list num) (v : R) (k : nat) :
  reduce_max l = Ok (v, k) →
  ∀ m x, (m < k)%nat → l !! m = Some (Some x) → x < v.
Proof.
  unfold reduce_max. destruct (reals l) as [xs| |] eqn:Hxs; simpl; [|done..].
  apply reals_Ok in Hxs as ->.
  destruct xs as [|y xs]; [done|]. intros [= Hmax] m x Hm.
  destruct (max_from_first _ _ _ _ _ _ (Nat.lt_0_1) Hmax) as [Hne Hall].
  rewrite list_lookup_fmap. destruct m as [|m]; simpl.
  - intros [= <-]. apply Hne. lia.
  - destruct (xs !! m) as [x'|] eqn:Hx; [|done]. intros [= <-].
    apply (Hall m x' Hx). lia.
Qed.

(** X20.  Ties between anchors are broken towards the lowest index: the
    anchor that [calc_anchor_match] takes as the best match of
    ground-truth box [j] has an overlap with it that no anchor exceeds
    and that every anchor of lower index stays strictly below. *)
Theorem closest_anchor_first (anchors gt_boxes : list box) (rate : R)
    (j : nat) (c : R) (a : nat) :
  closest_anchor anchors gt_boxes rate j = Ok (c, a) →
  entry (match_overlaps anchors gt_boxes rate) a j = Some (Some c)
  ∧ ∀ (i : nat) (e : num),
      entry (match_overlaps anchors gt_boxes rate) i j = Some e →
      ∃ v : R, e = Some v ∧ v <= c ∧ ((i < a)%nat → v < c).
Proof.
  intros Hc.
  destruct (closest_anchor_bounds _ _ _ _ _ _ Hc)
    as (row & Hrow & Hrj & _ & _).
  split; [unfold entry; by rewrite Hrow|].
  unfold closest_anchor in Hc.
  destruct (reduce_max_spec _ _ _ Hc) as [_ Hle].
  intros i e Hentry. unfold entry in Hentry.
  destruct (match_overlaps anchors gt_boxes rate !! i) as [row'|] eqn:Hrow';
    [|done].
  simpl in Hentry.
  assert (column j (match_overlaps anchors gt_boxes rate) !! i = Some e)
    as Hcol.
  { etrans; [exact (column_lookup j _ _ _ Hrow')|].
    destruct (row' !! j) as [e'|]; [|done]. by injection Hentry as <-. }
  destruct (Hle _ _ Hcol) as (v & -> & Hv).
  exists v. split; [done|]. split; [done|].
  intros Hia. by apply (reduce_max_first _ _ _ Hc i v Hia).
Qed.

Lemma closest_anchor_first_witness :
  entry (match_overlaps [fbox (0, 0, 4, 4); fbox (10, 10, 14, 14)]
           [fbox (0, 0, 4, 4)] 1) 0 0 = Some (Some 1)
  ∧ ∀ (i : nat) (e : num),
      entry (match_overlaps [fbox (0, 0, 4, 4); fbox (10, 10, 14, 14)]
               [fbox (0, 0, 4, 4)] 1) i 0 = Some e →
      ∃ v : R, e = Some v ∧ v <= 1 ∧ ((i < 0)%nat → v < 1).
Proof. exact (closest_anchor_first _ _ _ _ _ _ two_anchor_closest). Defined.

(** * Further properties of [calc_delta] *)

Lemma broadcast2_same_length (f : num → num → num) (a b : list num) :
  length a = length b → broadcast2 f a b = Ok (zip_with f a b).
Proof.
  intros Hlen. unfold broadcast2.
  destruct a as [|x [|x' a]], b as [|y [|y' b]]; try done.
  all: by rewrite decide_True.
Qed.

Lemma broadcast2_mismatch (f : num → num → num) (a b : list num) :
  (2 ≤ length a)%nat → (2 ≤ length b)%nat → length a ≠ length b →
  broadcast2 f a b = Raises.
Proof.
  intros Ha Hb Hne. unfold broadcast2.
  destruct a as [|x [|x' a]], b as [|y [|y' b]]; simpl in *; try lia.
  by rewrite decide_False.
Qed.

Lemma view4_length (n : nat) (flat : list num) :
  length flat = (n * 4)%nat → length (view4 flat) = n.
Proof.
  revert flat. induction n as [|n IH]; intros flat Hlen.
  - by destruct flat.
  - destruct flat as [|a [|b [|c [|d flat]]]]; simpl in Hlen; try lia.
    simpl. f_equal. apply IH. lia.
Qed.

Lemma view4_lookup (flat : list num) (i : nat) (a b c d : num) :
  flat !! (4 * i)%nat = Some a → flat !! (4 * i + 1)%nat = Some b →
  flat !! (4 * i + 2)%nat = Some c → flat !! (4 * i + 3)%nat = Some d →
  view4 flat !! i = Some (a, b, c, d).
Proof.
  revert flat. induction i as [|i IH]; intros flat Ha Hb Hc Hd.
  - destruct flat as [|a' [|b' [|c' [|d' flat]]]]; by simplify_eq/=.
  - assert (3 < length flat)%nat as Hlen.
    { apply lookup_lt_Some in Hd. lia. }
    destruct flat as [|a' [|b' [|c' [|d' flat]]]]; simpl in Hlen; try lia.
    replace (4 * S i)%nat with (S (S (S (S (4 * i))))) in * by lia.
    simpl in *. by apply IH.
Qed.

(** The four component vectors of [calc_delta], pair by pair. *)
Lemma delta_components (boxes ref_boxes : list box) :
  let ref_w := zip_with nsub (map col2 ref_boxes) (map col0 ref_boxes) in
  let ref_h := zip_with nsub (map col3 ref_boxes) (map col1 ref_boxes) in
  let ref_center_x :=
    zip_with nadd (map col0 ref_boxes) (map (nmul half) ref_w) in
  let ref_center_y :=
    zip_with nadd (map col1 ref_boxes) (map (nmul half) ref_h) in
  let w := zip_with nsub (map col2 boxes) (map col0 boxes) in
  let h := zip_with nsub (map col3 boxes) (map col1 boxes) in
  let center_x := zip_with nadd (map col0 boxes) (map (nmul half) w) in
  let center_y := zip_with nadd (map col1 boxes) (map (nmul half) h) in
  zip_with ndiv (zip_with nsub ref_center_x center_x) w
  = zip_with delta_dx boxes ref_boxes
  ∧ zip_with ndiv (zip_with nsub ref_center_y center_y) h
    = zip_with delta_dy boxes ref_boxes
  ∧ map nlog (zip_with ndiv ref_w w) = zip_with delta_dw boxes ref_boxes
  ∧ map nlog (zip_with ndiv ref_h h) = zip_with delta_dh boxes ref_boxes.
Proof.
  cbv zeta. revert ref_boxes.
  induction boxes as [|b boxes IH]; intros [|r ref_boxes]; try done.
  destruct (IH ref_boxes) as (Hx & Hy & Hw & Hh).
  cbn [map zip_with]. by rewrite Hx, Hy, Hw, Hh.
Qed.

(** The result of [calc_delta] on as many boxes as reference boxes. *)
Lemma calc_delta_flat (boxes ref_boxes : list box) (std : box) :
  length boxes = length ref_boxes →
  calc_delta boxes ref_boxes std
  = Ok (div_rows
          (view4 (zip_with delta_dx boxes ref_boxes
                  ++ zip_with delta_dy boxes ref_boxes
                  ++ zip_with delta_dw boxes ref_boxes
                  ++ zip_with delta_dh boxes ref_boxes))
          std).
Proof.
  intros Hlen. unfold calc_delta. cbv zeta.
  destruct (delta_components boxes ref_boxes) as (Hx & Hy & Hw & Hh).
  cbv zeta in Hx, Hy, Hw, Hh.
  repeat first
    [ rewrite bind_Ok
    | rewrite broadcast2_same_length
        by (repeat first [rewrite length_zip_with | rewrite length_map];
            lia) ].
  rewrite Hx, Hy, Hw, Hh.
  unfold view. rewrite decide_True; [done|].
  rewrite !length_app, !length_zip_with. lia.
Qed.

(** X21.  For as many boxes as reference boxes, [calc_delta] returns one
    row per box, and row [i] consists of the elements [4 i .. 4 i + 3] of
    the sequence "all x-offsets, all y-offsets, all log-width ratios, all
    log-height ratios", each divided by the std-dev entry of its
    column. *)
Theorem calc_delta_rows (boxes ref_boxes : list box) (std : box) :
  length boxes = length ref_boxes →
  ∃ rows : list box,
    calc_delta boxes ref_boxes std = Ok rows
    ∧ length rows = length boxes
    ∧ ∀ (i : nat) (a b c d : num),
        delta_flat boxes ref_boxes !! (4 * i)%nat = Some a →
        delta_flat boxes ref_boxes !! (4 * i + 1)%nat = Some b →
        delta_flat boxes ref_boxes !! (4 * i + 2)%nat = Some c →
        delta_flat boxes ref_boxes !! (4 * i + 3)%nat = Some d →
        rows !! i
        = Some (a ⊘ col0 std, b ⊘ col1 std, c ⊘ col2 std, d ⊘ col3 std)%num.
Proof.
  intros Hlen. exists (div_rows (view4 (delta_flat boxes ref_boxes)) std).
  split; [by apply calc_delta_flat|]. split.
  - unfold div_rows. rewrite length_map. apply view4_length.
    unfold delta_flat. rewrite !length_app, !length_zip_with. lia.
  - intros i a b c d Ha Hb Hc Hd. unfold div_rows.
    etrans; [apply list_lookup_fmap|].
    exact (f_equal (fmap _) (view4_lookup _ _ _ _ _ _ Ha Hb Hc Hd)).
Qed.

Lemma calc_delta_rows_witness :
  ∃ rows : list box,
    calc_delta [fbox (0, 0, 1, 1); fbox (0, 0, 1, 1)]
      [fbox (0, 0, 1, 1); fbox (2, 0, 3, 1)] (fbox (1, 1, 1, 1))
    = Ok rows
    ∧ length rows = 2%nat
    ∧ ∀ (i : nat) (a b c d : num),
        delta_flat [fbox (0, 0, 1, 1); fbox (0, 0, 1, 1)]
          [fbox (0, 0, 1, 1); fbox (2, 0, 3, 1)] !! (4 * i)%nat = Some a →
        delta_flat [fbox (0, 0, 1, 1); fbox (0, 0, 1, 1)]
          [fbox (0, 0, 1, 1); fbox (2, 0, 3, 1)] !! (4 * i + 1)%nat
        = Some b →
        delta_flat [fbox (0, 0, 1, 1); fbox (0, 0, 1, 1)]
          [fbox (0, 0, 1, 1); fbox (2, 0, 3, 1)] !! (4 * i + 2)%nat
        = Some c →
        delta_flat [fbox (0, 0, 1, 1); fbox (0, 0, 1, 1)]
          [fbox (0, 0, 1, 1); fbox (2, 0, 3, 1)] !! (4 * i + 3)%nat
        = Some d →
        rows !! i
        = Some (a ⊘ col0 (fbox (1, 1, 1, 1)), b ⊘ col1 (fbox (1, 1, 1, 1)),
                c ⊘ col2 (fbox (1, 1, 1, 1)),
                d ⊘ col3 (fbox (1, 1, 1, 1)))%num.
Proof.
  apply (calc_delta_rows [fbox (0, 0, 1, 1); fbox (0, 0, 1, 1)]
           [fbox (0, 0, 1, 1); fbox (2, 0, 3, 1)] (fbox (1, 1, 1, 1))).
  reflexivity.
Defined.

(** X22.  [calc_delta] raises when the numbers of boxes and of reference
    boxes differ and both are at least 2: the two tensors cannot be
    broadcast against each other. *)
Theorem calc_delta_mismatch (boxes ref_boxes : list box) (std : box) :
  (2 ≤ length boxes)%nat → (2 ≤ length ref_boxes)%nat →
  length boxes ≠ length ref_boxes →
  calc_delta boxes ref_boxes std = Raises.
Proof.
  intros Hb Hr Hne. unfold calc_delta. cbv zeta.
  rewrite !(broadcast2_mismatch nsub)
    by (repeat first [rewrite length_zip_with | rewrite length_map]; lia).
  done.
Qed.

Lemma calc_delta_mismatch_witness :
  calc_delta [fbox (0, 0, 1, 1); fbox (0, 0, 1, 1)]
    [fbox (0, 0, 1, 1); fbox (2, 0, 3, 1); fbox (0, 0, 1, 1)]
    (fbox (1, 1, 1, 1))
  = Raises.
Proof. apply calc_delta_mismatch; simpl; lia. Defined.

Lemma delta_spec_real (b r std : rbox) :
  positive_size b → positive_size r → nonzero4 std →
  delta_spec (fbox b) (fbox r) (fbox std) = fbox (delta_R b r std).
Proof.
  destruct b as [[[x1 y1] x2] y2], r as [[[rx1 ry1] rx2] ry2],
    std as [[[s0 s1] s2] s3].
  unfold positive_size, nonzero4. intros [Hw Hh] [Hrw Hrh] (H0 & H1 & H2 & H3).
  unfold delta_spec, delta_R. cbn [fbox col0 col1 col2 col3 fst snd].
  cbn [nsub nadd nmul lift2 half].
  assert (0 < (rx2 - rx1) / (x2 - x1)) by (apply Rdiv_lt_0_compat; lra).
  assert (0 < (ry2 - ry1) / (y2 - y1)) by (apply Rdiv_lt_0_compat; lra).
  rewrite !(ndiv_Some _ (x2 - x1)), !(ndiv_Some _ (y2 - y1)) by lra.
  rewrite !nlog_Some by done.
  by rewrite !ndiv_Some by done.
Qed.

(** X23.  For a single box and a single reference box with positive
    widths and heights, and std-dev entries that are not zero,
    [calc_delta] returns the one row
    [((ref_cx - cx) / w / s0, (ref_cy - cy) / h / s1,
      ln (ref_w / w) / s2, ln (ref_h / h) / s3)]. *)
Theorem calc_delta_single_real (b r std : rbox) :
  positive_size b → positive_size r → nonzero4 std →
  calc_delta [fbox b] [fbox r] (fbox std) = Ok [fbox (delta_R b r std)].
Proof.
  intros Hb Hr Hstd. by rewrite calc_delta_single, delta_spec_real.
Qed.

Lemma calc_delta_single_real_witness :
  calc_delta [fbox (0, 0, 1, 1)] [fbox (2, 0, 3, 1)] (fbox (1, 1, 1, 1))
  = Ok [fbox (delta_R (0, 0, 1, 1) (2, 0, 3, 1) (1, 1, 1, 1))].
Proof.
  apply (calc_delta_single_real (0, 0, 1, 1) (2, 0, 3, 1) (1, 1, 1, 1));
    simpl; repeat split; lra.
Defined.

Lemma delta_self (b : rbox) :
  positive_size b →
  delta_dx (fbox b) (fbox b) = Some 0 ∧ delta_dy (fbox b) (fbox b) = Some 0
  ∧ delta_dw (fbox b) (fbox b) = Some 0 ∧ delta_dh (fbox b) (fbox b) = Some 0.
Proof.
  destruct b as [[[x1 y1] x2] y2]. unfold positive_size. intros [Hw Hh].
  unfold delta_dx, delta_dy, delta_dw, delta_dh.
  cbn [fbox col0 col1 col2 col3 fst snd]. cbn [nsub nadd nmul lift2 half].
  rewrite !(ndiv_Some _ (x2 - x1)), !(ndiv_Some _ (y2 - y1)) by lra.
  replace ((x2 - x1) / (x2 - x1)) with 1 by (field; lra).
  replace ((y2 - y1) / (y2 - y1)) with 1 by (field; lra).
  rewrite nlog_one. repeat split; f_equal; field; lra.
Qed.

Lemma zip_with_self_const {A B : Type} (f : A → A → B) (z : B) (l : list A) :
  Forall (λ a, f a a = z) l → zip_with f l l = replicate (length l) z.
Proof.
  induction 1 as [|a l Ha _ IH]; simpl; [done | by rewrite Ha, IH].
Qed.

Lemma view4_replicate (n : nat) (z : num) :
  view4 (replicate (n * 4) z) = replicate n (z, z, z, z).
Proof. induction n as [|n IH]; simpl; [done | by rewrite IH]. Qed.

(** X24.  When every box is its own reference box, has positive width and
    height, and no std-dev entry is zero, [calc_delta] returns only zero
    rows, one per box. *)
Theorem calc_delta_identity (boxes : list rbox) (std : rbox) :
  Forall positive_size boxes → nonzero4 std →
  calc_delta (map fbox boxes) (map fbox boxes) (fbox std)
  = Ok (replicate (length boxes) (fbox (0, 0, 0, 0))).
Proof.
  intros Hpos Hstd. rewrite calc_delta_flat by done.
  assert (∀ F : box → box → num,
            (∀ b, positive_size b → F (fbox b) (fbox b) = Some 0) →
            zip_with F (map fbox boxes) (map fbox boxes)
            = replicate (length boxes) (Some 0)) as Hcomp.
  { intros F HF. rewrite zip_with_self_const with (z := Some 0).
    - by rewrite length_map.
    - apply Forall_fmap. eapply Forall_impl; [exact Hpos|]. exact HF. }
  rewrite !Hcomp by (intros b Hb; by apply (delta_self b)).
  rewrite <- !replicate_add.
  replace (length boxes + (length boxes + (length boxes + length boxes)))%nat
    with (length boxes * 4)%nat by lia.
  rewrite view4_replicate. unfold div_rows.
  rewrite fmap_replicate. f_equal.
  destruct std as [[[s0 s1] s2] s3]. destruct Hstd as (H0 & H1 & H2 & H3).
  cbn [fbox col0 col1 col2 col3 fst snd].
  rewrite !ndiv_Some by done.
  unfold Rdiv. by rewrite !Rmult_0_l.
Qed.

Lemma calc_delta_identity_witness :
  calc_delta (map fbox [(0, 0, 1, 1); (2, 0, 3, 4)])
    (map fbox [(0, 0, 1, 1); (2, 0, 3, 4)]) (fbox (1, 1, 1, 1))
  = Ok (replicate (length [(0, 0, 1, 1); (2, 0, 3, 4)]) (fbox (0, 0, 0, 0))).
Proof.
  apply (calc_delta_identity [(0, 0, 1, 1); (2, 0, 3, 4)] (1, 1, 1, 1)).
  - repeat constructor; lra.
  - simpl. repeat split; lra.
Defined.

Lemma zip_with_map_both {A B C : Type} (F : B → B → C) (g : A → B)
    (l k : list A) :
  zip_with F (map g l) (map g k) = zip_with (λ a b, F (g a) (g b)) l k.
Proof.
  revert k. induction l as [|a l IH]; intros [|b k]; simpl; [done..|].
  by rewrite IH.
Qed.

Lemma delta_flat_ext (g g' : rbox → box) (boxes ref_boxes : list rbox) :
  (∀ b r, delta_dx (g b) (g r) = delta_dx (g' b) (g' r)) →
  (∀ b r, delta_dy (g b) (g r) = delta_dy (g' b) (g' r)) →
  (∀ b r, delta_dw (g b) (g r) = delta_dw (g' b) (g' r)) →
  (∀ b r, delta_dh (g b) (g r) = delta_dh (g' b) (g' r)) →
  delta_flat (map g boxes) (map g ref_boxes)
  = delta_flat (map g' boxes) (map g' ref_boxes).
Proof.
  intros Hx Hy Hw Hh. unfold delta_flat. rewrite !zip_with_map_both.
  repeat f_equal;
    apply FunctionalExtensionality.functional_extensionality; intros b;
    apply FunctionalExtensionality.functional_extensionality; intros r;
    auto.
Qed.

Lemma calc_delta_ext (g g' : rbox → box) (boxes ref_boxes : list rbox)
    (std : box) :
  length boxes = length ref_boxes →
  (∀ b r, delta_dx (g b) (g r) = delta_dx (g' b) (g' r)) →
  (∀ b r, delta_dy (g b) (g r) = delta_dy (g' b) (g' r)) →
  (∀ b r, delta_dw (g b) (g r) = delta_dw (g' b) (g' r)) →
  (∀ b r, delta_dh (g b) (g r) = delta_dh (g' b) (g' r)) →
  calc_delta (map g boxes) (map g ref_boxes) std
  = calc_delta (map g' boxes) (map g' ref_boxes) std.
Proof.
  intros Hlen Hx Hy Hw Hh.
  rewrite !calc_delta_flat by (by rewrite !length_map).
  fold (delta_flat (map g boxes) (map g ref_boxes)).
  fold (delta_flat (map g' boxes) (map g' ref_boxes)).
  by rewrite (delta_flat_ext g g').
Qed.

Lemma delta_shift (dx dy : R) (b r : rbox) :
  delta_dx (fbox (shift_rbox dx dy b)) (fbox (shift_rbox dx dy r))
  = delta_dx (fbox b) (fbox r)
  ∧ delta_dy (fbox (shift_rbox dx dy b)) (fbox (shift_rbox dx dy r))
    = delta_dy (fbox b) (fbox r)
  ∧ delta_dw (fbox (shift_rbox dx dy b)) (fbox (shift_rbox dx dy r))
    = delta_dw (fbox b) (fbox r)
  ∧ delta_dh (fbox (shift_rbox dx dy b)) (fbox (shift_rbox dx dy r))
    = delta_dh (fbox b) (fbox r).
Proof.
  destruct b as [[[x1 y1] x2] y2], r as [[[rx1 ry1] rx2] ry2].
  unfold delta_dx, delta_dy, delta_dw, delta_dh, shift_rbox.
  cbn [fbox col0 col1 col2 col3 fst snd]. cbn [nsub nadd nmul lift2 half].
  replace (x2 + dx - (x1 + dx)) with (x2 - x1) by lra.
  replace (y2 + dy - (y1 + dy)) with (y2 - y1) by lra.
  replace (rx2 + dx - (rx1 + dx)) with (rx2 - rx1) by lra.
  replace (ry2 + dy - (ry1 + dy)) with (ry2 - ry1) by lra.
  replace (rx1 + dx + 1 / 2 * (rx2 - rx1) - (x1 + dx + 1 / 2 * (x2 - x1)))
    with (rx1 + 1 / 2 * (rx2 - rx1) - (x1 + 1 / 2 * (x2 - x1))) by lra.
  replace (ry1 + dy + 1 / 2 * (ry2 - ry1) - (y1 + dy + 1 / 2 * (y2 - y1)))
    with (ry1 + 1 / 2 * (ry2 - ry1) - (y1 + 1 / 2 * (y2 - y1))) by lra.
  done.
Qed.

(** X25.  Moving every box and every reference box by one and the same
    offset leaves the result of [calc_delta] unchanged. *)
Theorem calc_delta_shift (dx dy : R) (boxes ref_boxes : list rbox)
    (std : box) :
  length boxes = length ref_boxes →
  calc_delta (map (λ b, fbox (shift_rbox dx dy b)) boxes)
    (map (λ b, fbox (shift_rbox dx dy b)) ref_boxes) std
  = calc_delta (map fbox boxes) (map fbox ref_boxes) std.
Proof.
  intros Hlen.
  apply (calc_delta_ext (λ b, fbox (shift_rbox dx dy b)) fbox); [done|..];
    intros b r; apply (delta_shift dx dy b r).
Qed.

Lemma calc_delta_shift_witness :
  calc_delta (map (λ b, fbox (shift_rbox 5 7 b)) [(0, 0, 1, 1)])
    (map (λ b, fbox (shift_rbox 5 7 b)) [(2, 0, 3, 1)]) (fbox (1, 1, 1, 1))
  = calc_delta (map fbox [(0, 0, 1, 1)]) (map fbox [(2, 0, 3, 1)])
      (fbox (1, 1, 1, 1)).
Proof. by apply (calc_delta_shift 5 7 [(0, 0, 1, 1)] [(2, 0, 3, 1)]). Defined.
